(** * useAlgorithms: the algorithm execution harness

    A shallow embedding of the [useAlgorithms] hook of
    [src/pages/OpinionPage.jsx] (lines 1756-2191): the result cache
    ([cacheRef], a JavaScript [Map]), the metrics object ([metricsRef]),
    the execution history and the [executeAlgorithm] driver.

    Conventions of the embedding.
    - The mutable references and the React state of one hook instance are
      gathered in the record [State]; every operation is a function from
      the state before the call to the state after it.
    - Readings of the host clock ([Date.now()], [performance.now()]) and
      of [Math.random()] are inputs of the call, gathered in [Clock].
    - The registered algorithms are opaque: the registry and
      [JSON.stringify] are fields of [Instance], and a theorem about an
      [Instance] holds for all of them. A theorem about a host is about
      [hostHook], whose serializer is [JSON.stringify] on the values of
      [Value], and about clocks whose fallback text is the text of
      [Date.now()], an underscore and the text of [Math.random()].
    - Object property reads are own-property reads; a path that names a
      member of [Object.prototype] (such as [__proto__]) is outside the
      embedding.
    - The callbacks [onError], [onComplete] and [transform] are taken to
      return normally, and the first two have no effect on [State]. *)

From Stdlib Require Import ZArith QArith Lia Lqa Ascii String Sorting.Sorted.
From stdpp Require Import base strings list gmap pretty.

Set Warnings "-register-all".
Local Open Scope Z_scope.

(** ** JavaScript values *)

(** Values are inspected by the harness only through their truthiness
    (the cached-result test) and through [JSON.stringify]. Numbers are
    the integers: the registered algorithms that return a bare number
    return an integer, and a fraction is truthy like any non-zero
    integer. *)
Inductive Value : Type :=
| VUndefined
| VNull
| VBool (b : bool)
| VNumber (n : Z)
| VNaN
| VBigInt (n : Z)
| VString (s : string)
| VArray (items : list Value)
| VObject (fields : list (string * Value)).

(** ECMAScript ToBoolean. *)
Definition truthy (v : Value) : bool :=
  match v with
  | VUndefined | VNull | VNaN => false
  | VBool b => b
  | VNumber n | VBigInt n => negb (n =? 0)
  | VString s => negb (String.eqb s "")
  | VArray _ | VObject _ => true
  end.

(** Result of a numeric division in JavaScript. *)
Inductive JsNumber : Type :=
| Finite (q : Q)
| Infinite (negative : bool)
| NaN.

Definition jsDivide (a b : Z) : JsNumber :=
  if b =? 0 then (if a =? 0 then NaN else Infinite (a <? 0))
  else Finite (inject_Z a / inject_Z b).

(** ** The registry *)

(** What [Promise.resolve(algorithm(...params))] gives: the call returns
    a plain value, throws an [Error], or returns a promise that a timer
    armed during the call settles after [delay] milliseconds, or a
    promise that never settles; or the call never returns, and then
    nothing after it is ever run. *)
Inductive Outcome : Type :=
| Returns (v : Value)
| Throws (message : string)
| Settles (delay : Z) (r : Value + string)
| NeverSettles
| Diverges.

(** A property of a category table: a function, or anything else (the
    nested [rsa], [utils], [masks] and [constants] objects). *)
Inductive Property : Type :=
| PFunction (f : list Value → Outcome)
| PNonFunction.

Abbreviation Category := (gmap string Property).

(** ** Configuration *)

Record Config : Type := mkConfig {
  enableCache : bool;
  cacheTTL : Z;
  enableMetrics : bool;
  maxCacheSize : Z
}.

Definition defaultConfig : Config :=
  {| enableCache := true;
     cacheTTL := 30 * 60 * 1000;
     enableMetrics := true;
     maxCacheSize := 100 |}.

Record Options : Type := mkOptions {
  skipCache : bool;
  timeout : Z;
  validateInput : bool;
  transform : option (Value → Value)
}.

Definition defaultOptions : Options :=
  {| skipCache := false; timeout := 30000; validateInput := true; transform := None |}.

(** One hook instance: its options, the imported category tables and the
    host's [JSON.stringify] ([None] when it throws). *)
Record Instance : Type := mkInstance {
  config : Config;
  algorithmMap : gmap string Category;
  JSON_stringify : list Value → option string
}.

(** Host readings of one [executeAlgorithm] call. *)
Record Clock : Type := mkClock {
  nowCheck : Z;          (* Date.now() in getCachedResult *)
  nowStamp : Z;          (* Date.now() for the entry's timestamp *)
  nowExpiry : Z;         (* Date.now() for the entry's expiry *)
  nowHistory : Z;        (* Date.now() for the history record *)
  elapsed : Q;           (* performance.now() - startTime *)
  fallbackNonce : string (* text of Date.now() _ Math.random() *)
}.

(** ** State *)

Module CacheEntry.
Record t : Type := mk {
  result : Value;
  timestamp : Z;
  expires : Z
}.
End CacheEntry.

Module HistoryRecord.
Record t : Type := mk {
  algorithm : string;
  params : nat;
  executionTime : Q;
  timestamp : Z;
  success : bool;
  error : option string
}.
End HistoryRecord.

Record AlgStats : Type := mkAlgStats {
  executions : Z;
  totalTime : Q;
  averageTime : Q;
  errors : Z
}.

Record Metrics : Type := mkMetrics {
  totalExecutions : Z;
  cacheHits : Z;
  cacheMisses : Z;
  averageExecutionTime : Q;
  algorithmStats : gmap string AlgStats
}.

(** A JavaScript [Map] keeps its entries in insertion order: an
    association list with one pair per key. *)
Abbreviation JsMap := (list (string * CacheEntry.t)).

Record State : Type := mkState {
  cache : JsMap;
  metrics : Metrics;
  executionHistory : list HistoryRecord.t;
  lastResult : option Value;
  error : option string;
  isLoading : bool
}.

Definition initialMetrics : Metrics :=
  {| totalExecutions := 0; cacheHits := 0; cacheMisses := 0;
     averageExecutionTime := 0%Q; algorithmStats := ∅ |}.

Definition initialState : State :=
  {| cache := []; metrics := initialMetrics; executionHistory := [];
     lastResult := None; error := None; isLoading := false |}.

(** ** Map operations *)

Definition mapGet (k : string) (m : JsMap) : option CacheEntry.t :=
  snd <$> List.find (λ kv, String.eqb (fst kv) k) m.

Definition mapDelete (k : string) (m : JsMap) : JsMap :=
  List.filter (λ kv, negb (String.eqb (fst kv) k)) m.

Fixpoint mapSet (k : string) (e : CacheEntry.t) (m : JsMap) : JsMap :=
  match m with
  | [] => [(k, e)]
  | (k', e') :: m' =>
      if String.eqb k' k then (k', e) :: m' else (k', e') :: mapSet k e m'
  end.

Definition mapSize (m : JsMap) : Z := Z.of_nat (length m).

(** [entries.sort((a, b) => a[1].timestamp - b[1].timestamp)]: the sort of
    [Array.prototype.sort] is stable. *)
Fixpoint insertByTimestamp (x : string * CacheEntry.t) (l : JsMap) : JsMap :=
  match l with
  | [] => [x]
  | y :: l' =>
      if CacheEntry.timestamp (snd x) <=? CacheEntry.timestamp (snd y)
      then x :: y :: l'
      else y :: insertByTimestamp x l'
  end.

Definition sortByTimestamp (m : JsMap) : JsMap :=
  List.fold_right insertByTimestamp [] m.

Definition deleteAll (ks : list string) (m : JsMap) : JsMap :=
  List.fold_left (λ acc k, mapDelete k acc) ks m.

(** [String.prototype.split] with a one-character separator. *)
Fixpoint splitOn (sep : Ascii.ascii) (s : string) : list string :=
  match s with
  | EmptyString => [EmptyString]
  | String c rest =>
      if Ascii.eqb c sep then EmptyString :: splitOn sep rest
      else match splitOn sep rest with
           | seg :: segs => String c seg :: segs
           | [] => [String c EmptyString]
           end
  end.

(** [prev.slice(-19)]. *)
Definition sliceLast (n : nat) {A : Type} (l : list A) : list A :=
  skipn (length l - n)%nat l.

(** ** State updates *)

Definition withCache (c : JsMap) (st : State) : State :=
  {| cache := c; metrics := metrics st; executionHistory := executionHistory st;
     lastResult := lastResult st; error := error st; isLoading := isLoading st |}.

Definition withMetrics (m : Metrics) (st : State) : State :=
  {| cache := cache st; metrics := m; executionHistory := executionHistory st;
     lastResult := lastResult st; error := error st; isLoading := isLoading st |}.

Definition setExecutionHistory (f : list HistoryRecord.t → list HistoryRecord.t)
    (st : State) : State :=
  {| cache := cache st; metrics := metrics st;
     executionHistory := f (executionHistory st);
     lastResult := lastResult st; error := error st; isLoading := isLoading st |}.

Definition setLastResult (v : Value) (st : State) : State :=
  {| cache := cache st; metrics := metrics st; executionHistory := executionHistory st;
     lastResult := Some v; error := error st; isLoading := isLoading st |}.

Definition setError (e : option string) (st : State) : State :=
  {| cache := cache st; metrics := metrics st; executionHistory := executionHistory st;
     lastResult := lastResult st; error := e; isLoading := isLoading st |}.

Definition setIsLoading (b : bool) (st : State) : State :=
  {| cache := cache st; metrics := metrics st; executionHistory := executionHistory st;
     lastResult := lastResult st; error := error st; isLoading := b |}.

Definition countHit (m : Metrics) : Metrics :=
  {| totalExecutions := totalExecutions m; cacheHits := cacheHits m + 1;
     cacheMisses := cacheMisses m; averageExecutionTime := averageExecutionTime m;
     algorithmStats := algorithmStats m |}.

Definition countMiss (m : Metrics) : Metrics :=
  {| totalExecutions := totalExecutions m; cacheHits := cacheHits m;
     cacheMisses := cacheMisses m + 1; averageExecutionTime := averageExecutionTime m;
     algorithmStats := algorithmStats m |}.

Definition withAlgorithmStats (s : gmap string AlgStats) (m : Metrics) : Metrics :=
  {| totalExecutions := totalExecutions m; cacheHits := cacheHits m;
     cacheMisses := cacheMisses m; averageExecutionTime := averageExecutionTime m;
     algorithmStats := s |}.

Definition emptyStats : AlgStats :=
  {| executions := 0; totalTime := 0%Q; averageTime := 0%Q; errors := 0 |}.

Definition countError (s : AlgStats) : AlgStats :=
  {| executions := executions s; totalTime := totalTime s;
     averageTime := averageTime s; errors := errors s + 1 |}.

(** What the race of the execution promise against the timeout promise
    yields. The timeout timer is armed before the algorithm is called, so
    it fires first when both delays are equal; a value that is already
    there wins against every timer, since a timer cannot fire while the
    algorithm runs; and when the algorithm does not return, the race is
    never reached. *)
Inductive Raced : Type :=
| Fulfilled (v : Value)
| Rejected (message : string)
| TimerWon
| Blocked.

Definition race (o : Outcome) (timeout : Z) : Raced :=
  match o with
  | Returns v => Fulfilled v
  | Throws message => Rejected message
  | Settles delay r =>
      if delay <? timeout
      then match r with inl v => Fulfilled v | inr message => Rejected message end
      else TimerWon
  | NeverSettles => TimerWon
  | Diverges => Blocked
  end.

(** How an [executeAlgorithm] call ends; [Hangs] when it never does. *)
Inductive Event : Type :=
| CacheHit (v : Value)
| Completed (v : Value)
| LookupFailed (message : string)
| InvokeFailed (message : string)
| TimedOut (message : string) (after : Z)
| Hangs.

Definition invoked (e : Event) : bool :=
  match e with
  | Completed _ | InvokeFailed _ | TimedOut _ _ | Hangs => true
  | CacheHit _ | LookupFailed _ => false
  end.

Definition hangs (e : Event) : bool :=
  match e with
  | Hangs => true
  | _ => false
  end.

Definition returned (e : Event) : option Value :=
  match e with
  | CacheHit v | Completed v => Some v
  | _ => None
  end.

Definition raised (e : Event) : option string :=
  match e with
  | LookupFailed m | InvokeFailed m | TimedOut m _ => Some m
  | _ => None
  end.

Definition timeoutMessage : string := "Timeout: El algoritmo tardó demasiado".

(** ** The hook *)

Section Hook.

Variable inst : Instance.

Definition generateCacheKey (algorithm : string) (params : list Value)
    (clk : Clock) : string :=
  match JSON_stringify inst params with
  | Some json => algorithm +:+ "_" +:+ json
  | None => algorithm +:+ "_" +:+ fallbackNonce clk
  end.

Definition cleanExpiredCache (now : Z) (st : State) : State :=
  withCache
    (List.filter (λ kv, negb (CacheEntry.expires (snd kv) <? now)) (cache st)) st.

Definition getCachedResult (cacheKey : string) (now : Z) (st : State)
    : Value * State :=
  if negb (enableCache (config inst)) then (VNull, st)
  else
    match mapGet cacheKey (cache st) with
    | Some entry =>
        if now <? CacheEntry.expires entry
        then (CacheEntry.result entry, withMetrics (countHit (metrics st)) st)
        else (VNull, withMetrics (countMiss (metrics st))
                       (withCache (mapDelete cacheKey (cache st)) st))
    | None => (VNull, withMetrics (countMiss (metrics st)) st)
    end.

(** [Math.floor(maxCacheSize * 0.3)]: for an integer [maxCacheSize] the
    double product rounds to the same floor as the exact [3 * n / 10]. *)
Definition evictCount : Z := (3 * maxCacheSize (config inst)) / 10.

Definition evictOldest (c : JsMap) : JsMap :=
  deleteAll (fst <$> take (Z.to_nat evictCount) (sortByTimestamp c)) c.

Definition setCachedResult (cacheKey : string) (result : Value) (clk : Clock)
    (st : State) : State :=
  if negb (enableCache (config inst)) then st
  else
    let c := cache st in
    let c1 := if maxCacheSize (config inst) <=? mapSize c then evictOldest c else c in
    withCache
      (mapSet cacheKey
         {| CacheEntry.result := result;
            CacheEntry.timestamp := nowStamp clk;
            CacheEntry.expires := nowExpiry clk + cacheTTL (config inst) |} c1) st.

Definition updateMetrics (algorithm : string) (executionTime : Q)
    (fromCache : bool) (st : State) : State :=
  if negb (enableMetrics (config inst)) then st
  else if fromCache then st
  else
    let m := metrics st in
    let n := totalExecutions m + 1 in
    let total := (averageExecutionTime m * inject_Z (n - 1))%Q in
    let avg := ((total + executionTime) / inject_Z n)%Q in
    let old := default emptyStats (algorithmStats m !! algorithm) in
    let executions' := executions old + 1 in
    let totalTime' := (totalTime old + executionTime)%Q in
    let algStats :=
      {| executions := executions';
         totalTime := totalTime';
         averageTime := (totalTime' / inject_Z executions')%Q;
         errors := errors old |} in
    withMetrics
      {| totalExecutions := n;
         cacheHits := cacheHits m;
         cacheMisses := cacheMisses m;
         averageExecutionTime := avg;
         algorithmStats := <[algorithm := algStats]> (algorithmStats m) |} st.

(** The registry lookup of [executeAlgorithm]: the function, or the
    message of the error thrown. *)
Definition resolveAlgorithm (algorithmPath : string)
    : (list Value → Outcome) + string :=
  let segments := splitOn "."%char algorithmPath in
  let category := default EmptyString (head segments) in
  let method := segments !! 1%nat in
  match algorithmMap inst !! category with
  | None => inr ("Categoría de algoritmo no encontrada: " +:+ category)
  | Some algorithmCategory =>
      let algorithm :=
        match method with
        | Some m => if String.eqb m "" then Some PNonFunction
                    else algorithmCategory !! m
        | None => Some PNonFunction
        end in
      match algorithm with
      | Some (PFunction f) => inl f
      | _ => inr ("Algoritmo no encontrado: " +:+ algorithmPath)
      end
  end.

(** The [catch] and [finally] blocks. *)
Definition failWith (algorithmPath : string) (params : list Value)
    (clk : Clock) (message : string) (st : State) : State :=
  let m := metrics st in
  let m1 :=
    if enableMetrics (config inst) then
      match algorithmStats m !! algorithmPath with
      | Some s => withAlgorithmStats
                    (<[algorithmPath := countError s]> (algorithmStats m)) m
      | None => m
      end
    else m in
  let st1 := withMetrics m1 st in
  let st2 := setExecutionHistory (λ prev, sliceLast 19 prev ++
    [ {| HistoryRecord.algorithm := algorithmPath;
         HistoryRecord.params := length params;
         HistoryRecord.executionTime := elapsed clk;
         HistoryRecord.timestamp := nowHistory clk;
         HistoryRecord.success := false;
         HistoryRecord.error := Some message |} ]) st1 in
  setIsLoading false (setError (Some message) st2).

(** The completion of a call whose race the algorithm won. *)
Definition complete (algorithmPath : string) (params : list Value)
    (options : Options) (clk : Clock) (cacheKey : string) (result : Value)
    (st : State) : State * Event :=
  let finalResult :=
    match transform options with Some f => f result | None => result end in
  let executionTime := elapsed clk in
  let st1 := updateMetrics algorithmPath executionTime false st in
  let st2 := setCachedResult cacheKey finalResult clk st1 in
  let st3 := setExecutionHistory (λ prev, sliceLast 19 prev ++
    [ {| HistoryRecord.algorithm := algorithmPath;
         HistoryRecord.params := length params;
         HistoryRecord.executionTime := executionTime;
         HistoryRecord.timestamp := nowHistory clk;
         HistoryRecord.success := true;
         HistoryRecord.error := None |} ]) st2 in
  (setIsLoading false (setLastResult finalResult st3), Completed finalResult).

(** Everything after the cache check. *)
Definition lookupAndInvoke (algorithmPath : string) (params : list Value)
    (options : Options) (clk : Clock) (cacheKey : string) (st : State)
    : State * Event :=
  match resolveAlgorithm algorithmPath with
  | inr message =>
      (failWith algorithmPath params clk message st, LookupFailed message)
  | inl algorithm =>
      match race (algorithm params) (timeout options) with
      | Fulfilled result =>
          complete algorithmPath params options clk cacheKey result st
      | Rejected message =>
          (failWith algorithmPath params clk message st, InvokeFailed message)
      | TimerWon =>
          (failWith algorithmPath params clk timeoutMessage st,
           TimedOut timeoutMessage (timeout options))
      | Blocked => (st, Hangs)
      end
  end.

Definition executeAlgorithm (algorithmPath : string) (params : list Value)
    (options : Options) (clk : Clock) (st : State) : State * Event :=
  let st0 := setError None (setIsLoading true st) in
  let cacheKey := generateCacheKey algorithmPath params clk in
  if skipCache options then
    lookupAndInvoke algorithmPath params options clk cacheKey st0
  else
    let '(cachedResult, st1) := getCachedResult cacheKey (nowCheck clk) st0 in
    if truthy cachedResult then
      (updateMetrics algorithmPath 0 true
         (setIsLoading false (setLastResult cachedResult st1)),
       CacheHit cachedResult)
    else lookupAndInvoke algorithmPath params options clk cacheKey st1.

(** ** Utilities *)

Definition clearCache (st : State) : State :=
  let m := metrics st in
  withMetrics
    {| totalExecutions := totalExecutions m; cacheHits := 0; cacheMisses := 0;
       averageExecutionTime := averageExecutionTime m;
       algorithmStats := algorithmStats m |}
    (withCache [] st).

Record MetricsView : Type := mkMetricsView {
  viewMetrics : Metrics;
  cacheSize : Z;
  cacheHitRatio : JsNumber
}.

Definition getMetrics (now : Z) (st : State) : MetricsView * State :=
  let st1 := cleanExpiredCache now st in
  let m := metrics st1 in
  ({| viewMetrics := m;
      cacheSize := mapSize (cache st1);
      cacheHitRatio :=
        if 0 <? totalExecutions m
        then jsDivide (cacheHits m) (cacheHits m + cacheMisses m)
        else Finite 0 |}, st1).

Definition resetMetrics (st : State) : State :=
  setExecutionHistory (λ _, []) (withMetrics initialMetrics st).

End Hook.


(** ** Sequences of calls *)

Record Call : Type := mkCall {
  callPath : string;
  callParams : list Value;
  callOptions : Options;
  callClock : Clock
}.

Inductive Action : Type :=
| Execute (c : Call)
| ClearCache
| GetMetrics (now : Z)
| ResetMetrics.

Section Traces.

Variable inst : Instance.

Definition executeCall (c : Call) (st : State) : State * Event :=
  executeAlgorithm inst (callPath c) (callParams c) (callOptions c) (callClock c) st.

(** The calls of a sequence with the way each one ended, and the state
    after the last one. The hook runs on one thread: after a call that
    hangs, no later call is made. *)
Fixpoint runCalls (st : State) (cs : list Call) : State * list (Call * Event) :=
  match cs with
  | [] => (st, [])
  | c :: cs' =>
      let '(st1, e) := executeCall c st in
      if hangs e then (st1, [(c, e)])
      else
        let '(st2, es) := runCalls st1 cs' in
        (st2, (c, e) :: es)
  end.

Definition step (st : State) (a : Action) : State :=
  match a with
  | Execute c => fst (executeCall c st)
  | ClearCache => clearCache st
  | GetMetrics now => snd (getMetrics now st)
  | ResetMetrics => resetMetrics st
  end.

Definition blocks (st : State) (a : Action) : bool :=
  match a with
  | Execute c => hangs (snd (executeCall c st))
  | _ => false
  end.

Fixpoint run (st : State) (actions : list Action) : State :=
  match actions with
  | [] => st
  | a :: rest => if blocks st a then step st a else run (step st a) rest
  end.

(** The states a hook instance can be in. *)
Definition reachable (st : State) : Prop :=
  ∃ actions, st = run initialState actions.

(** The state in which the registry lookup starts. *)
Definition afterCheck (path : string) (params : list Value) (options : Options)
    (clk : Clock) (st : State) : State :=
  let st0 := setError None (setIsLoading true st) in
  if skipCache options then st0
  else snd (getCachedResult inst (generateCacheKey inst path params clk)
              (nowCheck clk) st0).

(** The value with which the call returns from the cache, if it does. *)
Definition servedFromCache (path : string) (params : list Value)
    (options : Options) (clk : Clock) (st : State) : option Value :=
  if skipCache options then None
  else
    let v := fst (getCachedResult inst (generateCacheKey inst path params clk)
                    (nowCheck clk) (setError None (setIsLoading true st))) in
    if truthy v then Some v else None.

(** The record a call leaves in the history; a call served from the
    cache leaves none. *)
Definition historyRecordOf (ce : Call * Event) : option HistoryRecord.t :=
  let '(c, e) := ce in
  let record ok err :=
    {| HistoryRecord.algorithm := callPath c;
       HistoryRecord.params := length (callParams c);
       HistoryRecord.executionTime := elapsed (callClock c);
       HistoryRecord.timestamp := nowHistory (callClock c);
       HistoryRecord.success := ok;
       HistoryRecord.error := err |} in
  match e with
  | CacheHit _ | Hangs => None
  | Completed _ => Some (record true None)
  | LookupFailed m | InvokeFailed m | TimedOut m _ => Some (record false (Some m))
  end.

(** The duration of a call that ran its algorithm to completion. *)
Definition durationOf (ce : Call * Event) : option Q :=
  match snd ce with
  | Completed _ => Some (elapsed (callClock (fst ce)))
  | _ => None
  end.

End Traces.

Definition Qsum (l : list Q) : Q := List.fold_right Qplus 0%Q l.

(** No entry of the cache of [st'] is new or changed with respect to [st]. *)
Definition noCacheWrite (st st' : State) : Prop :=
  ∀ k e, mapGet k (cache st') = Some e → mapGet k (cache st) = Some e.

(** ** A concrete instance

    The default options, [JSON.stringify] on the values of [Value], and
    the part of the [cryptography] table used below
    ([src/utils/algorithms/cryptography.js]). *)

Module Example.

(** [QuoteJSONString]: the escapes of a string literal. *)
Definition hexDigit (n : N) : Ascii.ascii :=
  ascii_of_N (if (n <? 10)%N then 48 + n else 87 + n).

Definition escapeChar (c : Ascii.ascii) : string :=
  let n := N_of_ascii c in
  if (n =? 34)%N then String (ascii_of_N 92) (String c EmptyString)
  else if (n =? 92)%N then String c (String c EmptyString)
  else if (n =? 8)%N then "\b"
  else if (n =? 9)%N then "\t"
  else if (n =? 10)%N then "\n"
  else if (n =? 12)%N then "\f"
  else if (n =? 13)%N then "\r"
  else if (n <? 32)%N then
    "\u00" +:+ String (hexDigit (n / 16)) (String (hexDigit (n mod 16)) EmptyString)
  else String c EmptyString.

Fixpoint escapeString (s : string) : string :=
  match s with
  | EmptyString => EmptyString
  | String c rest => escapeChar c +:+ escapeString rest
  end.

Definition quote (s : string) : string :=
  String (ascii_of_N 34) (escapeString s +:+ String (ascii_of_N 34) EmptyString).

Definition joinComma (l : list string) : string :=
  match l with
  | [] => EmptyString
  | x :: r => List.fold_left (λ acc y, acc +:+ "," +:+ y) r x
  end.

(** [SerializeJSONProperty]: the text of a value; a value that is left
    out of an object and written [null] in an array; or a [TypeError],
    which a BigInt raises. Integers are written in decimal, as JavaScript
    writes them below 10^21. *)
Inductive Serialized : Type :=
| Text (s : string)
| Omitted
| Unserializable.

Fixpoint serialize (v : Value) : Serialized :=
  match v with
  | VUndefined => Omitted
  | VNull | VNaN => Text "null"
  | VBool b => Text (if b then "true" else "false")
  | VNumber n => Text (pretty n)
  | VBigInt _ => Unserializable
  | VString s => Text (quote s)
  | VArray items =>
      match
        (fix elements (l : list Value) : option (list string) :=
           match l with
           | [] => Some []
           | x :: r =>
               match serialize x with
               | Text t => cons t <$> elements r
               | Omitted => cons "null" <$> elements r
               | Unserializable => None
               end
           end) items
      with
      | Some texts => Text ("[" +:+ joinComma texts +:+ "]")
      | None => Unserializable
      end
  | VObject fields =>
      match
        (fix members (l : list (string * Value)) : option (list string) :=
           match l with
           | [] => Some []
           | (k, x) :: r =>
               match serialize x with
               | Text t => cons (quote k +:+ ":" +:+ t) <$> members r
               | Omitted => members r
               | Unserializable => None
               end
           end) fields
      with
      | Some texts => Text ("{" +:+ joinComma texts +:+ "}")
      | None => Unserializable
      end
  end.

(** [JSON.stringify(params)] for an array [params]: its text, or [None]
    when it throws. *)
Definition stringify (params : list Value) : option string :=
  match serialize (VArray params) with
  | Text s => Some s
  | _ => None
  end.

(** [isPrime] of [cryptography.js]. The loop runs while [i * i <= n]
    with [i] growing from 3, so [n] rounds of fuel are never used up. *)
Fixpoint isPrimeLoop (fuel : nat) (i n : Z) : bool :=
  match fuel with
  | O => true
  | S fuel' =>
      if i * i <=? n
      then (if Z.rem n i =? 0 then false else isPrimeLoop fuel' (i + 2) n)
      else true
  end.

Definition isPrime (n : Z) : bool :=
  if n <? 2 then false
  else if n =? 2 then true
  else if Z.rem n 2 =? 0 then false
  else isPrimeLoop (Z.to_nat n) 3 n.

(** [extendedGCD] of [cryptography.js]: the triple [(gcd, x, y)]. The
    second argument shrinks in absolute value at every call. *)
Fixpoint extendedGCDLoop (fuel : nat) (a b : Z) : Z * Z * Z :=
  match fuel with
  | O => (a, 1, 0)
  | S fuel' =>
      if b =? 0 then (a, 1, 0)
      else
        let '(g, rx, ry) := extendedGCDLoop fuel' b (Z.rem a b) in
        (g, ry, rx - (a / b) * ry)
  end.

Definition extendedGCD (a b : Z) : Z * Z * Z :=
  extendedGCDLoop (S (Z.abs_nat b)) a b.

(** [modularInverse] of [cryptography.js]. *)
Definition modularInverse (a m : Z) : Outcome :=
  let '(g, x, _) := extendedGCD a m in
  if negb (g =? 1)
  then Throws ("No existe inverso modular de " +:+ pretty a +:+ " módulo " +:+ pretty m)
  else Returns (VNumber (Z.rem (Z.rem x m + m) m)).

(** The table entries, on integer arguments (and NaN for [gcd], a BigInt
    for [generatePrimes]). A call with arguments of another shape is not
    part of the example; the entry is made total by a rejection that the
    source does not have. *)
Definition notInExample : Outcome := Throws "argumentos no enteros".

Definition isPrimeEntry (params : list Value) : Outcome :=
  match params with
  | VNumber n :: _ => Returns (VBool (isPrime n))
  | _ => notInExample
  end.

(** [generatePrimes] of [cryptography.js]: [i] runs from 2 while
    [i <= limit], a comparison that also takes a BigInt limit. *)
Definition generatePrimes (limit : Z) : list Z :=
  List.filter isPrime (seqZ 2 (limit - 1)).

Definition generatePrimesEntry (params : list Value) : Outcome :=
  match params with
  | VNumber limit :: _ | VBigInt limit :: _ =>
      Returns (VArray (VNumber <$> generatePrimes limit))
  | _ => notInExample
  end.

(** [gcd] of [cryptography.js], on integers and NaN ([None]). The loop
    [while (b !== 0)] goes on as long as [b] is not the number 0; NaN is
    not, and [a % b] is NaN as soon as [a] or [b] is. [gcdLoop] gives the
    value returned when the loop ends within [fuel] rounds. *)
Definition jsAbs (x : option Z) : option Z := Z.abs <$> x.

Definition jsRem (a b : option Z) : option Z :=
  match a, b with
  | Some x, Some y => if y =? 0 then None else Some (Z.rem x y)
  | _, _ => None
  end.

Definition isZero (b : option Z) : bool :=
  match b with
  | Some 0 => true
  | _ => false
  end.

Fixpoint gcdLoop (fuel : nat) (a b : option Z) : option (option Z) :=
  match fuel with
  | O => None
  | S fuel' => if isZero b then Some a else gcdLoop fuel' b (jsRem a b)
  end.

Definition numberValue (x : option Z) : Value :=
  match x with
  | Some n => VNumber n
  | None => VNaN
  end.

(** With two integers the loop ends within [|b| + 1] rounds; with a NaN
    it ends only when [b] is 0 from the start. *)
Definition gcd (a b : option Z) : Outcome :=
  match jsAbs b with
  | None => Diverges
  | Some y =>
      match gcdLoop (S (S (Z.to_nat y))) (jsAbs a) (Some y) with
      | Some r => Returns (numberValue r)
      | None => Diverges
      end
  end.

Definition numberOf (v : Value) : option (option Z) :=
  match v with
  | VNumber n => Some (Some n)
  | VNaN => Some None
  | _ => None
  end.

Definition gcdEntry (params : list Value) : Outcome :=
  match params with
  | a :: b :: _ =>
      match numberOf a, numberOf b with
      | Some x, Some y => gcd x y
      | _, _ => notInExample
      end
  | _ => notInExample
  end.

Definition modularInverseEntry (params : list Value) : Outcome :=
  match params with
  | VNumber a :: VNumber m :: _ => modularInverse a m
  | _ => notInExample
  end.

Definition cryptography : Category :=
  {[ "gcd" := PFunction gcdEntry;
     "isPrime" := PFunction isPrimeEntry;
     "generatePrimes" := PFunction generatePrimesEntry;
     "modularInverse" := PFunction modularInverseEntry;
     "rsa" := PNonFunction ]}.

Definition registry : gmap string Category :=
  {[ "cryptography" := cryptography ]}.

Definition hook : Instance :=
  {| config := defaultConfig; algorithmMap := registry; JSON_stringify := stringify |}.

Definition hookWith (cfg : Config) : Instance :=
  {| config := cfg; algorithmMap := registry; JSON_stringify := stringify |}.

(** The readings of a call made when [Date.now()] is [t] that takes [d]
    milliseconds, with [Math.random()] giving 0.5. *)
Definition at_ (t : Z) (d : Q) : Clock :=
  {| nowCheck := t; nowStamp := t; nowExpiry := t; nowHistory := t;
     elapsed := d; fallbackNonce := pretty t +:+ "_0.5" |}.

(** A table with a promise-returning function that never settles, for
    the timeout scenario; no table of the repository has one. *)
Definition pendingHook : Instance :=
  {| config := defaultConfig;
     algorithmMap := {[ "gameTheory" := {[ "pending" := PFunction (λ _, NeverSettles) ]} ]};
     JSON_stringify := stringify |}.

Definition withTimeout (t : Z) : Options :=
  {| skipCache := false; timeout := t; validateInput := true; transform := None |}.

Definition skippingCache : Options :=
  {| skipCache := true; timeout := 30000; validateInput := true; transform := None |}.

(** [execute('cryptography.isPrime', [n])] at time [t], taking [d]
    milliseconds. *)
Definition isPrimeCallTaking (n t : Z) (d : Q) : Call :=
  {| callPath := "cryptography.isPrime"; callParams := [VNumber n];
     callOptions := defaultOptions; callClock := at_ t d |}.

Definition isPrimeCall (n t : Z) : Call := isPrimeCallTaking n t 1.

(** [execute('cryptography.modularInverse', [a, m])] at time [t]. *)
Definition modularInverseCall (a m t : Z) : Call :=
  {| callPath := "cryptography.modularInverse";
     callParams := [VNumber a; VNumber m];
     callOptions := defaultOptions; callClock := at_ t 1 |}.

End Example.

(** ** Predicates on states and keys *)

Fixpoint noUnderscore (s : string) : bool :=
  match s with
  | EmptyString => true
  | String c rest => negb (Ascii.eqb c "_") && noUnderscore rest
  end.

Definition keysOf (m : JsMap) : list string := fst <$> m.

(** The entry [x] was stamped no later than [y]. *)
Definition olderOrEqual (x y : string * CacheEntry.t) : Prop :=
  CacheEntry.timestamp (snd x) ≤ CacheEntry.timestamp (snd y).

Section Predicates.

Variable inst : Instance.

Definition resolves (path : string) : Prop :=
  ∃ f, resolveAlgorithm inst path = inl f.

(** Statistics are kept only for paths that resolve, and every key of
    the cache was made for a path that resolves. *)
Definition statsResolve (st : State) : Prop :=
  ∀ p s, algorithmStats (metrics st) !! p = Some s → resolves p.

Definition cacheKeysResolve (st : State) : Prop :=
  ∀ k e, In (k, e) (cache st) →
    ∃ p a c, k = generateCacheKey inst p a c ∧ resolves p.

(** The cache holds one entry per key and no more than [maxCacheSize]
    entries. *)
Definition cacheWithinBound (st : State) : Prop :=
  NoDup (keysOf (cache st)) ∧ mapSize (cache st) ≤ maxCacheSize (config inst).

End Predicates.

(** ** The keys of a host

    The fallback key of [generateCacheKey] ends in the text of
    [Date.now()], an underscore and the text of [Math.random()]: two
    numbers. *)
Definition numberChar (c : Ascii.ascii) : bool :=
  let n := N_of_ascii c in
  ((48 <=? n) && (n <=? 57))%N     (* 0-9 *)
  || (n =? 46)%N                   (* . *)
  || (n =? 101)%N                  (* e *)
  || (n =? 45)%N                   (* - *)
  || (n =? 43)%N.                  (* + *)

Fixpoint numberText (s : string) : bool :=
  match s with
  | EmptyString => true
  | String c rest => numberChar c && numberText rest
  end.

Definition hostNonce (clk : Clock) : Prop :=
  ∃ now random,
    fallbackNonce clk = now +:+ "_" +:+ random
    ∧ numberText now = true ∧ numberText random = true.

Definition onHost (a : Action) : Prop :=
  match a with
  | Execute c => hostNonce (callClock c)
  | _ => True
  end.

(** The states a hook instance can be in on a host. *)
Definition reachableOnHost (inst : Instance) (st : State) : Prop :=
  ∃ actions, Forall onHost actions ∧ st = run inst initialState actions.

(** A hook with the serializer of the host. *)
Definition hostHook (cfg : Config) (registry : gmap string Category) : Instance :=
  {| config := cfg; algorithmMap := registry; JSON_stringify := Example.stringify |}.

(** Where a character of a JSON text stands: outside a string literal,
    inside one, or right after a backslash inside one. Outside a string
    literal a JSON text has no backslash and no underscore. *)
Inductive Lex : Type :=
| Outside
| Inside
| Escaped.

Definition lexStep (st : Lex) (c : Ascii.ascii) : option Lex :=
  let n := N_of_ascii c in
  match st with
  | Outside =>
      if (n =? 34)%N then Some Inside
      else if (n =? 92)%N || (n =? 95)%N then None
      else Some Outside
  | Inside =>
      if (n =? 34)%N then Some Outside
      else if (n =? 92)%N then Some Escaped
      else Some Inside
  | Escaped => Some Inside
  end.

Fixpoint lex (st : Lex) (s : string) : option Lex :=
  match s with
  | EmptyString => Some st
  | String c rest =>
      match lexStep st c with
      | Some st' => lex st' rest
      | None => None
      end
  end.

Definition lexesOutside (t : string) : Prop := lex Outside t = Some Outside.

(** The suffix of a key, after the underscore that follows the path: the
    JSON text of the parameters, or the two numbers of the fallback. *)
Definition keySuffix (s : string) : Prop :=
  (∃ params, Example.stringify params = Some s)
  ∨ (∃ now random, s = now +:+ "_" +:+ random
       ∧ numberText now = true ∧ numberText random = true).

(** Every key of the cache was made on a host, for a path that resolves. *)
Definition cacheKeysOnHost (inst : Instance) (st : State) : Prop :=
  ∀ k e, In (k, e) (cache st) →
    ∃ p a c, k = generateCacheKey inst p a c ∧ resolves inst p ∧ hostNonce c.

(** * Properties *)

(** ** The map *)

Lemma mapGet_cons k k' e m :
  mapGet k ((k', e) :: m) = if String.eqb k' k then Some e else mapGet k m.
Proof. unfold mapGet; simpl. by destruct (String.eqb k' k). Qed.

Lemma mapGet_mapSet_eq k e m : mapGet k (mapSet k e m) = Some e.
Proof.
  induction m as [|[k' e'] m IH]; simpl.
  - by rewrite mapGet_cons, String.eqb_refl.
  - destruct (String.eqb k' k) eqn:Hk; rewrite mapGet_cons, Hk; auto.
Qed.

Lemma mapGet_mapSet_ne k k' e m :
  k ≠ k' → mapGet k (mapSet k' e m) = mapGet k m.
Proof.
  intros Hne. induction m as [|[k0 e0] m IH]; simpl.
  - rewrite mapGet_cons. destruct (String.eqb_spec k' k); congruence.
  - destruct (String.eqb_spec k0 k'); rewrite !mapGet_cons.
    + subst. destruct (String.eqb_spec k' k); congruence.
    + by rewrite IH.
Qed.

Lemma mapGet_mapDelete_eq k m : mapGet k (mapDelete k m) = None.
Proof.
  induction m as [|[k1 e1] m IH]; simpl; [done|].
  destruct (String.eqb_spec k1 k); simpl; [done|].
  rewrite mapGet_cons. destruct (String.eqb_spec k1 k); done.
Qed.

Lemma mapGet_mapDelete_ne k k' m :
  k ≠ k' → mapGet k (mapDelete k' m) = mapGet k m.
Proof.
  intros Hne. induction m as [|[k0 e0] m IH]; simpl; [done|].
  destruct (String.eqb_spec k0 k') as [->|Hne']; simpl; rewrite !mapGet_cons.
  - destruct (String.eqb_spec k' k); congruence.
  - by rewrite IH.
Qed.

Lemma mapGet_mapDelete_Some k k' m e :
  mapGet k (mapDelete k' m) = Some e → mapGet k m = Some e.
Proof.
  destruct (decide (k = k')) as [->|Hne].
  - by rewrite mapGet_mapDelete_eq.
  - by rewrite mapGet_mapDelete_ne.
Qed.

Lemma mapGet_deleteAll_Some ks k m e :
  mapGet k (deleteAll ks m) = Some e → mapGet k m = Some e.
Proof.
  revert m. induction ks as [|k0 ks IH]; simpl; [done|].
  intros m H. apply IH in H. by apply mapGet_mapDelete_Some in H.
Qed.

Lemma noCacheWrite_refl st : noCacheWrite st st.
Proof. by intros k e. Qed.

Lemma noCacheWrite_trans st1 st2 st3 :
  noCacheWrite st1 st2 → noCacheWrite st2 st3 → noCacheWrite st1 st3.
Proof. intros H12 H23 k e H. auto. Qed.

(** ** One call, step by step *)

Section Steps.

Variable inst : Instance.

Lemma executeAlgorithm_unfold path params options clk st :
  executeAlgorithm inst path params options clk st =
  match servedFromCache inst path params options clk st with
  | Some v =>
      (updateMetrics inst path 0 true
         (setIsLoading false
            (setLastResult v (afterCheck inst path params options clk st))),
       CacheHit v)
  | None =>
      lookupAndInvoke inst path params options clk
        (generateCacheKey inst path params clk)
        (afterCheck inst path params options clk st)
  end.
Proof.
  unfold executeAlgorithm, servedFromCache, afterCheck.
  destruct (skipCache options); [done|].
  destruct (getCachedResult _ _ _ _) as [v st1]; simpl.
  by destruct (truthy v).
Qed.

Lemma updateMetrics_fromCache path t st :
  updateMetrics inst path t true st = st.
Proof. unfold updateMetrics. by destruct (enableMetrics _). Qed.

(** The cache check: what it returns and what it changes. *)
Lemma getCachedResult_spec key now st :
  let '(v, st') := getCachedResult inst key now st in
  executionHistory st' = executionHistory st
  ∧ totalExecutions (metrics st') = totalExecutions (metrics st)
  ∧ averageExecutionTime (metrics st') = averageExecutionTime (metrics st)
  ∧ algorithmStats (metrics st') = algorithmStats (metrics st)
  ∧ lastResult st' = lastResult st ∧ error st' = error st
  ∧ isLoading st' = isLoading st
  ∧ noCacheWrite st st'.
Proof.
  unfold getCachedResult.
  destruct (enableCache _); simpl; [|repeat split; by try intros ??].
  destruct (mapGet key (cache st)) as [entry|]; simpl;
    [destruct (now <? CacheEntry.expires entry)|]; simpl;
    repeat split; try done; intros k e; try done.
  apply mapGet_mapDelete_Some.
Qed.

Lemma afterCheck_spec path params options clk st :
  let st' := afterCheck inst path params options clk st in
  executionHistory st' = executionHistory st
  ∧ totalExecutions (metrics st') = totalExecutions (metrics st)
  ∧ averageExecutionTime (metrics st') = averageExecutionTime (metrics st)
  ∧ algorithmStats (metrics st') = algorithmStats (metrics st)
  ∧ noCacheWrite st st'.
Proof.
  unfold afterCheck. destruct (skipCache options); simpl;
    [repeat split; by try intros ??|].
  pose proof (getCachedResult_spec (generateCacheKey inst path params clk)
                (nowCheck clk) (setError None (setIsLoading true st))) as H.
  destruct (getCachedResult _ _ _ _) as [v st']; simpl in *.
  destruct H as (?&?&?&?&?&?&?&?). by repeat split.
Qed.

(** A call is served from the cache exactly when the cache is on, the
    call does not skip it, and the entry under the call's key has not
    expired and holds a truthy result. *)
Lemma servedFromCache_Some path params options clk st v :
  servedFromCache inst path params options clk st = Some v ↔
  skipCache options = false ∧ enableCache (config inst) = true ∧ truthy v = true ∧
  ∃ entry, mapGet (generateCacheKey inst path params clk) (cache st) = Some entry
           ∧ CacheEntry.result entry = v
           ∧ nowCheck clk < CacheEntry.expires entry.
Proof.
  unfold servedFromCache, getCachedResult.
  destruct (skipCache options); [split; [done|by intros [? _]]|].
  destruct (enableCache _); simpl; [|split; [done|by intros (_&?&_)]].
  destruct (mapGet _ _) as [entry|] eqn:Hget; simpl;
    [|split; [done|by intros (_&_&_&e&?&_)]].
  destruct (Z.ltb_spec (nowCheck clk) (CacheEntry.expires entry)); simpl.
  - destruct (truthy (CacheEntry.result entry)) eqn:Ht.
    + split; [intros [= <-]; eauto 10|].
      intros (_&_&_&e&[= <-]&<-&_). done.
    + split; [done|]. intros (_&_&Hv&e&[= <-]&<-&_). congruence.
  - split; [done|]. intros (_&_&_&e&[= <-]&_&?). lia.
Qed.

Lemma afterCheck_hit path params options clk st v :
  servedFromCache inst path params options clk st = Some v →
  let st' := afterCheck inst path params options clk st in
  cache st' = cache st
  ∧ cacheHits (metrics st') = cacheHits (metrics st) + 1
  ∧ cacheMisses (metrics st') = cacheMisses (metrics st).
Proof.
  intros Hs. pose proof Hs as (Hskip&Hen&_&entry&Hget&_&Hlt)%servedFromCache_Some.
  unfold afterCheck, getCachedResult. rewrite Hskip, Hen; simpl.
  rewrite Hget. apply Z.ltb_lt in Hlt. by rewrite Hlt.
Qed.

Lemma failWith_spec path params clk message st :
  let st' := failWith inst path params clk message st in
  cache st' = cache st
  ∧ cacheHits (metrics st') = cacheHits (metrics st)
  ∧ cacheMisses (metrics st') = cacheMisses (metrics st)
  ∧ totalExecutions (metrics st') = totalExecutions (metrics st)
  ∧ averageExecutionTime (metrics st') = averageExecutionTime (metrics st)
  ∧ error st' = Some message
  ∧ executionHistory st' = sliceLast 19 (executionHistory st) ++
      [ {| HistoryRecord.algorithm := path;
           HistoryRecord.params := length params;
           HistoryRecord.executionTime := elapsed clk;
           HistoryRecord.timestamp := nowHistory clk;
           HistoryRecord.success := false;
           HistoryRecord.error := Some message |} ]
  ∧ algorithmStats (metrics st') =
      if enableMetrics (config inst) then
        match algorithmStats (metrics st) !! path with
        | Some s => <[path := countError s]> (algorithmStats (metrics st))
        | None => algorithmStats (metrics st)
        end
      else algorithmStats (metrics st).
Proof.
  unfold failWith; simpl.
  destruct (enableMetrics _); simpl; [|by repeat split].
  destruct (algorithmStats (metrics st) !! path); simpl; by repeat split.
Qed.

End Steps.

Section StepsOfExecute.

Variable inst : Instance.

Lemma lookupAndInvoke_not_hit path params options clk key st st' v :
  lookupAndInvoke inst path params options clk key st ≠ (st', CacheHit v).
Proof.
  unfold lookupAndInvoke, complete.
  destruct (resolveAlgorithm inst path) as [f|m]; [|done].
  by destruct (race (f params) (timeout options)).
Qed.

(** The two ways a call can go. *)
Lemma executeAlgorithm_cases path params options clk st st' e :
  executeAlgorithm inst path params options clk st = (st', e) →
  (∃ v, servedFromCache inst path params options clk st = Some v
        ∧ e = CacheHit v
        ∧ st' = setIsLoading false
                  (setLastResult v (afterCheck inst path params options clk st)))
  ∨ (servedFromCache inst path params options clk st = None
     ∧ lookupAndInvoke inst path params options clk
         (generateCacheKey inst path params clk)
         (afterCheck inst path params options clk st) = (st', e)).
Proof.
  rewrite executeAlgorithm_unfold.
  destruct (servedFromCache _ _ _ _ _ _) as [v|]; [|by right].
  rewrite updateMetrics_fromCache. intros [= <- <-]. left; eauto.
Qed.

Lemma executeAlgorithm_hit path params options clk st st' v :
  executeAlgorithm inst path params options clk st = (st', CacheHit v) →
  servedFromCache inst path params options clk st = Some v
  ∧ st' = setIsLoading false
            (setLastResult v (afterCheck inst path params options clk st)).
Proof.
  intros [(v'&Hs&[= <-]&->)|[_ H]]%executeAlgorithm_cases; [done|].
  by apply lookupAndInvoke_not_hit in H.
Qed.

End StepsOfExecute.

(** ** Cache hits *)

(** C2, as amended: a call served from the cache counts one cache hit and
    nothing else: the miss counter, [totalExecutions], the average, the
    history and the cache stay as they were; the value returned is that of
    an entry stored under the call's key that has not expired; and the
    call ends the same way whatever the registry holds, so no algorithm is
    looked up or invoked. No history record is appended. *)
Theorem cache_hit_bookkeeping inst path params options clk st st' v :
  executeAlgorithm inst path params options clk st = (st', CacheHit v) →
  cacheHits (metrics st') = cacheHits (metrics st) + 1
  ∧ cacheMisses (metrics st') = cacheMisses (metrics st)
  ∧ totalExecutions (metrics st') = totalExecutions (metrics st)
  ∧ averageExecutionTime (metrics st') = averageExecutionTime (metrics st)
  ∧ executionHistory st' = executionHistory st
  ∧ cache st' = cache st
  ∧ (∃ entry, mapGet (generateCacheKey inst path params clk) (cache st) = Some entry
              ∧ CacheEntry.result entry = v
              ∧ nowCheck clk < CacheEntry.expires entry)
  ∧ ∀ registry,
      executeAlgorithm
        {| config := config inst; algorithmMap := registry;
           JSON_stringify := JSON_stringify inst |}
        path params options clk st = (st', CacheHit v).
Proof.
  intros [Hs ->]%executeAlgorithm_hit.
  pose proof (afterCheck_hit inst _ _ _ _ _ _ Hs) as (Hc&Hh&Hm).
  pose proof (afterCheck_spec inst path params options clk st) as (Hh'&Ht&Ha&_&_).
  pose proof Hs as (_&_&_&Hentry)%servedFromCache_Some.
  simpl in *. repeat split; try done.
  intros registry. rewrite executeAlgorithm_unfold.
  change (servedFromCache _ path params options clk st)
    with (servedFromCache inst path params options clk st).
  rewrite Hs, updateMetrics_fromCache. done.
Qed.

(** [execute('cryptography.isPrime', [7])] twice, one second apart, on a
    fresh hook: the second call is served from the cache. *)
Lemma cache_hit_bookkeeping_witness :
  let st1 := fst (executeCall Example.hook (Example.isPrimeCall 7 1000) initialState) in
  let st2 := fst (executeCall Example.hook (Example.isPrimeCall 7 2000) st1) in
  executeCall Example.hook (Example.isPrimeCall 7 2000) st1 = (st2, CacheHit (VBool true))
  ∧ cacheHits (metrics st2) = cacheHits (metrics st1) + 1
  ∧ executionHistory st2 = executionHistory st1.
Proof.
  intros st1 st2.
  assert (executeCall Example.hook (Example.isPrimeCall 7 2000) st1
          = (st2, CacheHit (VBool true))) as H by (vm_compute; reflexivity).
  split; [exact H|].
  destruct (cache_hit_bookkeeping _ _ _ _ _ _ _ _ H) as (Hh&_&_&_&Hhist&_).
  split; [exact Hh|exact Hhist].
Defined.

(** C2, as stated, fails: [execute('cryptography.isPrime', [7])] twice, one
    second apart, on a fresh hook. The second call is a cache hit and the
    history still holds the one record of the first call, whose execution
    time is not 0. *)
Lemma cache_hit_appends_no_record :
  let st1 := fst (executeCall Example.hook (Example.isPrimeCall 7 1000) initialState) in
  let '(st2, e) := executeCall Example.hook (Example.isPrimeCall 7 2000) st1 in
  e = CacheHit (VBool true)
  ∧ length (executionHistory st1) = 1%nat
  ∧ executionHistory st2 = executionHistory st1
  ∧ Forall (λ r, ¬ (HistoryRecord.executionTime r == 0)%Q) (executionHistory st2).
Proof.
  vm_compute. repeat split. repeat constructor. discriminate.
Qed.

(** ** Failing calls *)

Section Failures.

Variable inst : Instance.

(** A call that is not served from the cache and ends in the [catch]
    block with [message]. *)
Lemma executeAlgorithm_failWith path params options clk st e message :
  servedFromCache inst path params options clk st = None →
  lookupAndInvoke inst path params options clk
    (generateCacheKey inst path params clk)
    (afterCheck inst path params options clk st)
  = (failWith inst path params clk message
       (afterCheck inst path params options clk st), e) →
  let st' := fst (executeAlgorithm inst path params options clk st) in
  snd (executeAlgorithm inst path params options clk st) = e
  ∧ error st' = Some message
  ∧ executionHistory st' = sliceLast 19 (executionHistory st) ++
      [ {| HistoryRecord.algorithm := path;
           HistoryRecord.params := length params;
           HistoryRecord.executionTime := elapsed clk;
           HistoryRecord.timestamp := nowHistory clk;
           HistoryRecord.success := false;
           HistoryRecord.error := Some message |} ]
  ∧ algorithmStats (metrics st') =
      (if enableMetrics (config inst) then
         match algorithmStats (metrics st) !! path with
         | Some s => <[path := countError s]> (algorithmStats (metrics st))
         | None => algorithmStats (metrics st)
         end
       else algorithmStats (metrics st))
  ∧ totalExecutions (metrics st') = totalExecutions (metrics st)
  ∧ averageExecutionTime (metrics st') = averageExecutionTime (metrics st)
  ∧ noCacheWrite st st'.
Proof.
  intros Hs Hl. rewrite executeAlgorithm_unfold, Hs, Hl. cbn [fst snd].
  pose proof (failWith_spec inst path params clk message
                (afterCheck inst path params options clk st)) as Hfail.
  pose proof (afterCheck_spec inst path params options clk st) as Hcheck.
  cbv zeta in Hfail, Hcheck.
  destruct Hfail as (Hc&_&_&Ht&Ha&He&Hh&Hst).
  destruct Hcheck as (Hh'&Ht'&Ha'&Hst'&Hw).
  rewrite Hh' in Hh. rewrite Hst' in Hst.
  repeat split; try congruence.
  intros k x. rewrite Hc. apply Hw.
Qed.

End Failures.

(** C3, as amended: when the algorithm of a call throws (or its promise
    is rejected before the timeout) with message [m], the call raises
    exactly [m], a failure record holding [m] goes to the end of the
    history, and nothing is cached. The error counter of the path goes up
    by exactly 1 when metrics are on and the path already has a statistics
    entry, that is, when the path has completed a call before; for a path
    without an entry no counter exists and none is created. *)
Theorem algorithm_error_passthrough inst path params options clk st f m :
  servedFromCache inst path params options clk st = None →
  resolveAlgorithm inst path = inl f →
  race (f params) (timeout options) = Rejected m →
  let st' := fst (executeAlgorithm inst path params options clk st) in
  let e := snd (executeAlgorithm inst path params options clk st) in
  e = InvokeFailed m ∧ raised e = Some m
  ∧ executionHistory st' = sliceLast 19 (executionHistory st) ++
      [ {| HistoryRecord.algorithm := path;
           HistoryRecord.params := length params;
           HistoryRecord.executionTime := elapsed clk;
           HistoryRecord.timestamp := nowHistory clk;
           HistoryRecord.success := false;
           HistoryRecord.error := Some m |} ]
  ∧ (∀ s, enableMetrics (config inst) = true →
          algorithmStats (metrics st) !! path = Some s →
          algorithmStats (metrics st') !! path = Some (countError s)
          ∧ errors (countError s) = errors s + 1)
  ∧ (algorithmStats (metrics st) !! path = None →
     algorithmStats (metrics st') = algorithmStats (metrics st))
  ∧ (enableMetrics (config inst) = false →
     algorithmStats (metrics st') = algorithmStats (metrics st))
  ∧ noCacheWrite st st'.
Proof.
  intros Hs Hf Hr.
  assert (lookupAndInvoke inst path params options clk
            (generateCacheKey inst path params clk)
            (afterCheck inst path params options clk st)
          = (failWith inst path params clk m
               (afterCheck inst path params options clk st), InvokeFailed m)) as Hl.
  { unfold lookupAndInvoke. by rewrite Hf, Hr. }
  destruct (executeAlgorithm_failWith inst _ _ _ _ _ _ _ Hs Hl)
    as (He&_&Hh&Hst&_&_&Hw).
  simpl. rewrite He. repeat split; try done.
  - rewrite Hst, H, H0. by rewrite lookup_insert_eq.
  - intros Hnone. by rewrite Hst, Hnone; destruct (enableMetrics _).
  - intros Hoff. by rewrite Hst, Hoff.
Qed.

(** [execute('cryptography.modularInverse', [2, 4])] after a successful
    [execute('cryptography.modularInverse', [3, 7])]: the path has its
    statistics entry and the error is counted. *)
Lemma algorithm_error_passthrough_witness :
  let st := fst (executeCall Example.hook (Example.modularInverseCall 3 7 1000) initialState) in
  let st' := fst (executeCall Example.hook (Example.modularInverseCall 2 4 2000) st) in
  snd (executeCall Example.hook (Example.modularInverseCall 2 4 2000) st)
    = InvokeFailed "No existe inverso modular de 2 módulo 4"
  ∧ errors <$> algorithmStats (metrics st') !! "cryptography.modularInverse" = Some 1.
Proof.
  intros st st'.
  destruct (algorithm_error_passthrough Example.hook
              "cryptography.modularInverse" [VNumber 2; VNumber 4] defaultOptions
              (Example.at_ 2000 1) st Example.modularInverseEntry
              "No existe inverso modular de 2 módulo 4")
    as (He&_&_&Hcount&_); [vm_compute; reflexivity..|].
  split; [exact He|].
  destruct (Hcount {| executions := 1; totalTime := 1; averageTime := 1 / 1;
                      errors := 0 |}) as [Hs _];
    [vm_compute; reflexivity..|].
  unfold st', executeCall; simpl. rewrite Hs. reflexivity.
Defined.

(** C3, as stated, fails: [execute('cryptography.modularInverse', [2, 4])]
    on a fresh hook. The algorithm throws, the call raises the algorithm's
    message, and no error counter is incremented: the path has never
    completed a call, so the statistics hold no entry for it, before or
    after. *)
Lemma first_failure_is_not_counted :
  let '(st', e) :=
    executeCall Example.hook (Example.modularInverseCall 2 4 1000) initialState in
  e = InvokeFailed "No existe inverso modular de 2 módulo 4"
  ∧ algorithmStats (metrics st') !! "cryptography.modularInverse" = None
  ∧ algorithmStats (metrics st') = ∅.
Proof. vm_compute. done. Qed.

(** ** Timeouts *)

(** C9, as amended: when the algorithm of a call returns a promise that
    never settles, or that settles [timeout] milliseconds after the call
    or later, the call is rejected by the timeout timer, [timeout]
    milliseconds after it was armed, with the timeout message; nothing is
    cached and the failure is recorded. An algorithm that runs
    synchronously is not covered: no timer fires while it runs. *)
Theorem timeout_wins inst path params options clk st f :
  servedFromCache inst path params options clk st = None →
  resolveAlgorithm inst path = inl f →
  (f params = NeverSettles
   ∨ ∃ delay r, f params = Settles delay r ∧ timeout options ≤ delay) →
  let st' := fst (executeAlgorithm inst path params options clk st) in
  let e := snd (executeAlgorithm inst path params options clk st) in
  e = TimedOut timeoutMessage (timeout options)
  ∧ raised e = Some timeoutMessage
  ∧ error st' = Some timeoutMessage
  ∧ noCacheWrite st st'
  ∧ mapGet (generateCacheKey inst path params clk) (cache st')
    = mapGet (generateCacheKey inst path params clk)
        (cache (afterCheck inst path params options clk st)).
Proof.
  intros Hs Hf Hout.
  assert (race (f params) (timeout options) = TimerWon) as Hr.
  { destruct Hout as [->|(delay&r&->&Hle)]; [done|]. simpl.
    destruct (Z.ltb_spec delay (timeout options)); [lia|done]. }
  assert (lookupAndInvoke inst path params options clk
            (generateCacheKey inst path params clk)
            (afterCheck inst path params options clk st)
          = (failWith inst path params clk timeoutMessage
               (afterCheck inst path params options clk st),
             TimedOut timeoutMessage (timeout options))) as Hl.
  { unfold lookupAndInvoke. by rewrite Hf, Hr. }
  destruct (executeAlgorithm_failWith inst _ _ _ _ _ _ _ Hs Hl)
    as (He&Herr&_&_&_&_&Hw).
  cbv zeta. rewrite He. repeat split; try done.
  rewrite executeAlgorithm_unfold, Hs, Hl. cbn [fst].
  pose proof (failWith_spec inst path params clk timeoutMessage
                (afterCheck inst path params options clk st)) as Hfail.
  cbv zeta in Hfail. by destruct Hfail as [-> _].
Qed.

(** [execute('gameTheory.pending', [], {timeout: 10})] on a fresh hook
    whose table holds a function that never settles. *)
Lemma timeout_wins_witness :
  let r := executeAlgorithm Example.pendingHook "gameTheory.pending" []
             (Example.withTimeout 10) (Example.at_ 1000 10) initialState in
  snd r = TimedOut timeoutMessage 10 ∧ cache (fst r) = [].
Proof.
  intros r.
  destruct (timeout_wins Example.pendingHook "gameTheory.pending" []
              (Example.withTimeout 10) (Example.at_ 1000 10) initialState
              (λ _, NeverSettles)) as (He&_&_&_&_);
    [vm_compute; reflexivity| vm_compute; reflexivity | left; reflexivity |].
  split; [exact He|]. vm_compute. reflexivity.
Defined.

(** ** The snapshot *)

Lemma cacheHitRatio_getMetrics now st :
  cacheHitRatio (fst (getMetrics now st)) =
  if 0 <? totalExecutions (metrics st)
  then jsDivide (cacheHits (metrics st))
         (cacheHits (metrics st) + cacheMisses (metrics st))
  else Finite 0.
Proof. reflexivity. Qed.

(** With counters that are not negative, the ratio of the snapshot is not
    a number exactly when a call has completed and the cache counters are
    both 0. *)
Lemma cacheHitRatio_NaN now st :
  0 ≤ cacheHits (metrics st) → 0 ≤ cacheMisses (metrics st) →
  cacheHitRatio (fst (getMetrics now st)) = NaN ↔
  0 < totalExecutions (metrics st)
  ∧ cacheHits (metrics st) = 0 ∧ cacheMisses (metrics st) = 0.
Proof.
  intros Hh Hm. rewrite cacheHitRatio_getMetrics. unfold jsDivide.
  destruct (Z.ltb_spec 0 (totalExecutions (metrics st))); [|split; [done|lia]].
  destruct (Z.eqb_spec (cacheHits (metrics st) + cacheMisses (metrics st)) 0);
    [|split; [done|lia]].
  destruct (Z.eqb_spec (cacheHits (metrics st)) 0); [|split; [done|lia]].
  split; [lia|done].
Qed.

(** C5 fails on the code: [execute('cryptography.isPrime', [7],
    {skipCache: true})] on a fresh hook, then [getMetrics()]. The call
    completes without a cache check, so [totalExecutions] is 1 while
    [cacheHits] and [cacheMisses] are 0; the guard of [getMetrics] tests
    [totalExecutions] and the snapshot divides 0 by 0. *)
Theorem hit_ratio_after_skipped_cache :
  let call := {| callPath := "cryptography.isPrime"; callParams := [VNumber 7];
                 callOptions := Example.skippingCache;
                 callClock := Example.at_ 1000 1 |} in
  let st := run Example.hook initialState [Execute call] in
  reachable Example.hook st
  ∧ totalExecutions (metrics st) = 1
  ∧ cacheHits (metrics st) = 0 ∧ cacheMisses (metrics st) = 0
  ∧ cacheHitRatio (fst (getMetrics 2000 st)) = NaN.
Proof.
  intros call st. split; [by exists [Execute call]|].
  vm_compute. done.
Qed.

(** The same guard with metrics switched off: [totalExecutions] stays 0,
    and the ratio of the snapshot is 0 after one miss and one hit. *)
Lemma hit_ratio_without_metrics :
  let inst := Example.hookWith
    {| enableCache := true; cacheTTL := 1800000; enableMetrics := false;
       maxCacheSize := 100 |} in
  let st := run inst initialState
              [Execute (Example.isPrimeCall 7 1000); Execute (Example.isPrimeCall 7 2000)] in
  cacheHits (metrics st) = 1 ∧ cacheMisses (metrics st) = 1
  ∧ cacheHitRatio (fst (getMetrics 3000 st)) = Finite 0.
Proof. vm_compute. done. Qed.

(** ** The size of the cache *)

(** C6 fails on the code: with [maxCacheSize] 2 the number of entries to
    evict, [Math.floor(2 * 0.3)], is 0; three calls with distinct
    parameters leave three entries in the cache. *)
Theorem small_cache_outgrows_maxCacheSize :
  let inst := Example.hookWith
    {| enableCache := true; cacheTTL := 1800000; enableMetrics := true;
       maxCacheSize := 2 |} in
  let st := fst (runCalls inst initialState
                   [Example.isPrimeCall 5 1000; Example.isPrimeCall 7 2000;
                    Example.isPrimeCall 11 3000]) in
  evictCount inst = 0
  ∧ fst <$> cache st = ["cryptography.isPrime_[5]"; "cryptography.isPrime_[7]";
                        "cryptography.isPrime_[11]"]
  ∧ maxCacheSize (config inst) < mapSize (cache st).
Proof. vm_compute. done. Qed.

(** ** Completed calls *)

Section Completion.

Variable inst : Instance.

Lemma setCachedResult_spec key v clk st :
  let st' := setCachedResult inst key v clk st in
  metrics st' = metrics st ∧ executionHistory st' = executionHistory st.
Proof. unfold setCachedResult. by destruct (enableCache _). Qed.

Lemma updateMetrics_spec path d st :
  let st' := updateMetrics inst path d false st in
  let m := metrics st in
  cache st' = cache st
  ∧ executionHistory st' = executionHistory st
  ∧ cacheHits (metrics st') = cacheHits m
  ∧ cacheMisses (metrics st') = cacheMisses m
  ∧ if enableMetrics (config inst) then
      totalExecutions (metrics st') = totalExecutions m + 1
      ∧ averageExecutionTime (metrics st')
        = ((averageExecutionTime m * inject_Z (totalExecutions m + 1 - 1) + d)
           / inject_Z (totalExecutions m + 1))%Q
      ∧ ∃ s, algorithmStats (metrics st') = <[path := s]> (algorithmStats m)
    else metrics st' = m.
Proof.
  unfold updateMetrics. destruct (enableMetrics _); simpl; [|done].
  repeat split; eauto.
Qed.

Lemma complete_spec path params options clk key result st :
  let st' := fst (complete inst path params options clk key result st) in
  let final := match transform options with Some f => f result | None => result end in
  snd (complete inst path params options clk key result st) = Completed final
  ∧ metrics st' = metrics (updateMetrics inst path (elapsed clk) false st)
  ∧ cache st' = cache (setCachedResult inst key final clk st)
  ∧ lastResult st' = Some final
  ∧ executionHistory st' = sliceLast 19 (executionHistory st) ++
      [ {| HistoryRecord.algorithm := path;
           HistoryRecord.params := length params;
           HistoryRecord.executionTime := elapsed clk;
           HistoryRecord.timestamp := nowHistory clk;
           HistoryRecord.success := true;
           HistoryRecord.error := None |} ].
Proof.
  unfold complete; cbn [fst snd].
  set (st1 := updateMetrics inst path (elapsed clk) false st).
  pose proof (updateMetrics_spec path (elapsed clk) st) as Hu.
  cbv zeta in Hu. fold st1 in Hu. destruct Hu as (Hc&Hh&_).
  pose proof (setCachedResult_spec key
    (match transform options with Some f => f result | None => result end)
    clk st1) as Hset.
  cbv zeta in Hset. destruct Hset as (Hm&Hh').
  simpl. rewrite Hm, Hh', Hh. repeat split; try done.
  unfold setCachedResult. destruct (enableCache _); simpl; by rewrite ?Hc.
Qed.

(** The ways the part after the cache check can go. *)
Lemma lookupAndInvoke_cases path params options clk key st st' e :
  lookupAndInvoke inst path params options clk key st = (st', e) →
  (∃ f result, resolveAlgorithm inst path = inl f
     ∧ race (f params) (timeout options) = Fulfilled result
     ∧ complete inst path params options clk key result st = (st', e))
  ∨ (∃ m, st' = failWith inst path params clk m st ∧
       ((resolveAlgorithm inst path = inr m ∧ e = LookupFailed m)
        ∨ (∃ f, resolveAlgorithm inst path = inl f
             ∧ race (f params) (timeout options) = Rejected m
             ∧ e = InvokeFailed m)
        ∨ (∃ f, resolveAlgorithm inst path = inl f
             ∧ race (f params) (timeout options) = TimerWon
             ∧ m = timeoutMessage
             ∧ e = TimedOut timeoutMessage (timeout options))))
  ∨ (∃ f, resolveAlgorithm inst path = inl f
       ∧ race (f params) (timeout options) = Blocked
       ∧ e = Hangs ∧ st' = st).
Proof.
  unfold lookupAndInvoke.
  destruct (resolveAlgorithm inst path) as [f|m].
  - destruct (race (f params) (timeout options)) as [result|m| |] eqn:Hr.
    + intros H. left. eauto.
    + intros [= <- <-]. right; left. exists m. split; [done|]. right; left. eauto.
    + intros [= <- <-]. right; left. exists timeoutMessage. split; [done|].
      right; right. eauto.
    + intros [= <- <-]. right; right. eauto.
  - intros [= <- <-]. right; left. exists m. split; [done|]. by left.
Qed.

(** What a call does to the history. *)
Lemma executeCall_history c st :
  executionHistory (fst (executeCall inst c st)) =
  match historyRecordOf (c, snd (executeCall inst c st)) with
  | Some r => sliceLast 19 (executionHistory st) ++ [r]
  | None => executionHistory st
  end.
Proof.
  destruct c as [path params options clk]. unfold executeCall; cbn [callPath
    callParams callOptions callClock].
  destruct (executeAlgorithm inst path params options clk st) as [st' e] eqn:He.
  pose proof (afterCheck_spec inst path params options clk st) as Hcheck.
  cbv zeta in Hcheck. destruct Hcheck as (Hh&_).
  apply executeAlgorithm_cases in He as [(v&_&->&->)|[_ Hl]]; [done|].
  apply lookupAndInvoke_cases in Hl
    as [(f&result&_&_&Hc)|[(m&->&Hm)|(f&_&_&->&->)]]; cbn [fst snd].
  - pose proof (complete_spec path params options clk
      (generateCacheKey inst path params clk) result
      (afterCheck inst path params options clk st)) as Hs.
    cbv zeta in Hs. rewrite Hc in Hs. cbn [fst snd] in Hs.
    destruct Hs as (->&_&_&_&->). simpl. by rewrite Hh.
  - pose proof (failWith_spec inst path params clk m
      (afterCheck inst path params options clk st)) as Hs.
    cbv zeta in Hs. destruct Hs as (_&_&_&_&_&_&->&_). rewrite Hh.
    destruct Hm as [[_ ->]|[(f&_&_&->)|(f&_&_&->&->)]]; done.
  - done.
Qed.

(** What a call does to [totalExecutions] and to the average. *)
Lemma executeCall_totals c st :
  enableMetrics (config inst) = true →
  let m := metrics st in
  let m' := metrics (fst (executeCall inst c st)) in
  match durationOf (c, snd (executeCall inst c st)) with
  | Some d =>
      totalExecutions m' = totalExecutions m + 1
      ∧ averageExecutionTime m'
        = ((averageExecutionTime m * inject_Z (totalExecutions m + 1 - 1) + d)
           / inject_Z (totalExecutions m + 1))%Q
  | None =>
      totalExecutions m' = totalExecutions m
      ∧ averageExecutionTime m' = averageExecutionTime m
  end.
Proof.
  intros Hon. destruct c as [path params options clk].
  unfold executeCall, durationOf; cbn [callPath callParams callOptions
    callClock fst snd].
  destruct (executeAlgorithm inst path params options clk st) as [st' e] eqn:He.
  pose proof (afterCheck_spec inst path params options clk st) as Hcheck.
  cbv zeta in Hcheck. destruct Hcheck as (_&Ht&Ha&_).
  apply executeAlgorithm_cases in He as [(v&_&->&->)|[_ Hl]]; [done|].
  apply lookupAndInvoke_cases in Hl
    as [(f&result&_&_&Hc)|[(m&->&Hm)|(f&_&_&->&->)]]; cbn [fst snd];
    [| |done].
  - pose proof (complete_spec path params options clk
      (generateCacheKey inst path params clk) result
      (afterCheck inst path params options clk st)) as Hs.
    cbv zeta in Hs. rewrite Hc in Hs. cbn [fst snd] in Hs.
    destruct Hs as (->&->&_).
    pose proof (updateMetrics_spec path (elapsed clk)
      (afterCheck inst path params options clk st)) as Hu.
    cbv zeta in Hu. rewrite Hon in Hu. destruct Hu as (_&_&_&_&->&->&_).
    by rewrite Ht, Ha.
  - pose proof (failWith_spec inst path params clk m
      (afterCheck inst path params options clk st)) as Hs.
    cbv zeta in Hs. destruct Hs as (_&_&_&->&->&_). rewrite Ht, Ha.
    destruct Hm as [[_ ->]|[(f&_&_&->)|(f&_&_&->&->)]]; done.
Qed.

End Completion.

(** ** Sequences of calls: the history *)

Lemma sliceLast_all {A} n (l : list A) : (length l ≤ n)%nat → sliceLast n l = l.
Proof. intros H. unfold sliceLast. by replace (length l - n)%nat with 0%nat by lia. Qed.

Lemma sliceLast_length {A} n (l : list A) : (length (sliceLast n l) ≤ n)%nat.
Proof. unfold sliceLast. rewrite length_skipn. lia. Qed.

Lemma sliceLast_sliceLast {A} k n (l : list A) :
  (k ≤ n)%nat → sliceLast k (sliceLast n l) = sliceLast k l.
Proof.
  intros Hk. unfold sliceLast. rewrite length_skipn.
  change (@skipn A) with (@drop A). rewrite drop_drop. f_equal. lia.
Qed.

Lemma sliceLast_snoc {A} n (l : list A) x :
  sliceLast n l ++ [x] = sliceLast (S n) (l ++ [x]).
Proof.
  unfold sliceLast. rewrite length_app; simpl.
  replace (length l + 1 - S n)%nat with (length l - n)%nat by lia.
  rewrite skipn_app.
  replace (length l - n - length l)%nat with 0%nat by lia. done.
Qed.

Lemma runCalls_cons inst st c cs :
  hangs (snd (executeCall inst c st)) = false →
  runCalls inst st (c :: cs) =
  (fst (runCalls inst (fst (executeCall inst c st)) cs),
   (c, snd (executeCall inst c st))
     :: snd (runCalls inst (fst (executeCall inst c st)) cs)).
Proof.
  simpl. destruct (executeCall inst c st) as [st1 e]; simpl. intros ->.
  by destruct (runCalls inst st1 cs).
Qed.

Lemma runCalls_cons_hangs inst st c cs :
  hangs (snd (executeCall inst c st)) = true →
  runCalls inst st (c :: cs) =
  (fst (executeCall inst c st), [(c, snd (executeCall inst c st))])
  ∧ snd (executeCall inst c st) = Hangs.
Proof.
  simpl. destruct (executeCall inst c st) as [st1 e]; simpl. intros H.
  rewrite H. by destruct e.
Qed.

Lemma runCalls_history inst cs st all :
  executionHistory st = sliceLast 20 all →
  executionHistory (fst (runCalls inst st cs)) =
  sliceLast 20 (all ++ omap (historyRecordOf) (snd (runCalls inst st cs))).
Proof.
  revert st all. induction cs as [|c cs IH]; intros st all Hst.
  - simpl. by rewrite app_nil_r.
  - pose proof (executeCall_history inst c st) as Hstep.
    destruct (hangs (snd (executeCall inst c st))) eqn:Hhang.
    { apply (runCalls_cons_hangs inst st c cs) in Hhang as [-> He].
      rewrite He in Hstep |- *. cbn [fst snd omap list_omap historyRecordOf] in *.
      by rewrite app_nil_r, Hstep. }
    rewrite runCalls_cons by done; cbn [fst snd omap list_omap].
    destruct (historyRecordOf (c, snd (executeCall inst c st))) as [r|].
    + rewrite (IH _ (all ++ [r])).
      * by rewrite <- app_assoc.
      * rewrite Hstep, Hst, sliceLast_sliceLast by lia. apply sliceLast_snoc.
    + apply IH. by rewrite Hstep.
Qed.

(** C8, as amended: the history never holds more than 20 records, and it
    holds, oldest first, the last 20 of the records left by the calls that
    were not served from the cache (completed, failed or timed out), in
    the order in which those calls ended; a call served from the cache
    leaves no record. After 25 such records, the history is the last 20 of
    them. *)
Theorem history_keeps_last_20 inst st cs :
  (length (executionHistory st) ≤ 20)%nat →
  let st' := fst (runCalls inst st cs) in
  let records := omap historyRecordOf (snd (runCalls inst st cs)) in
  executionHistory st' = sliceLast 20 (executionHistory st ++ records)
  ∧ (length (executionHistory st') ≤ 20)%nat
  ∧ (length (executionHistory st ++ records) = 25%nat →
     executionHistory st' = drop 5 (executionHistory st ++ records)
     ∧ length (executionHistory st') = 20%nat).
Proof.
  intros Hlen st' records.
  assert (executionHistory st' = sliceLast 20 (executionHistory st ++ records))
    as Heq by (apply runCalls_history; by rewrite sliceLast_all).
  split; [done|]. split; [rewrite Heq; apply sliceLast_length|].
  intros H25. rewrite Heq. unfold sliceLast. rewrite H25.
  split; [done|]. rewrite length_skipn. lia.
Qed.

(** [execute('cryptography.isPrime', [n])] for [n] from 1 to 25, one
    millisecond apart, on a fresh hook: the history holds the records of
    the calls for 6 to 25. *)
Lemma history_keeps_last_20_witness :
  let calls := (λ n, Example.isPrimeCall n (1000 + n)) <$> seqZ 1 25 in
  let st' := fst (runCalls Example.hook initialState calls) in
  length (executionHistory st') = 20%nat
  ∧ HistoryRecord.timestamp <$> executionHistory st' = seqZ 1006 20.
Proof.
  intros calls st'.
  destruct (history_keeps_last_20 Example.hook initialState calls)
    as (_&_&H25); [simpl; lia|].
  destruct H25 as [Heq Hlen]; [vm_compute; reflexivity|].
  split; [exact Hlen|].
  unfold st'. rewrite Heq. vm_compute. reflexivity.
Defined.

(** C8, as stated, fails: [execute('cryptography.isPrime', [7])] 25 times,
    one millisecond apart, on a fresh hook. Every call returns [true], the
    last 24 of them from the cache, and the history holds one record. *)
Lemma repeated_calls_leave_one_record :
  let calls := Example.isPrimeCall 7 <$> seqZ 1000 25 in
  let r := runCalls Example.hook initialState calls in
  length (snd r) = 25%nat
  ∧ Forall (λ ce, returned (snd ce) = Some (VBool true)) (snd r)
  ∧ length (executionHistory (fst r)) = 1%nat.
Proof. vm_compute. repeat split. repeat constructor. Qed.

(** ** Sequences of calls: the average *)

Lemma Qsum_Permutation l1 l2 : Permutation l1 l2 → (Qsum l1 == Qsum l2)%Q.
Proof.
  induction 1 as [|x l1 l2 _ IH|x y l|l1 l2 l3 _ IH1 _ IH2]; simpl.
  - reflexivity.
  - by rewrite IH.
  - ring.
  - by rewrite IH1.
Qed.

Lemma runCalls_totals inst cs st (sum : Q) :
  enableMetrics (config inst) = true →
  0 ≤ totalExecutions (metrics st) →
  (averageExecutionTime (metrics st) * inject_Z (totalExecutions (metrics st))
   == sum)%Q →
  let m' := metrics (fst (runCalls inst st cs)) in
  let durations := omap durationOf (snd (runCalls inst st cs)) in
  totalExecutions m' = totalExecutions (metrics st) + Z.of_nat (length durations)
  ∧ (averageExecutionTime m' * inject_Z (totalExecutions m')
     == sum + Qsum durations)%Q.
Proof.
  intros Hon. revert st sum. induction cs as [|c cs IH]; intros st sum Hpos Hsum.
  - cbn. split; [lia|]. rewrite Hsum. ring.
  - pose proof (executeCall_totals inst c st Hon) as Hstep. cbv zeta in Hstep.
    destruct (hangs (snd (executeCall inst c st))) eqn:Hhang.
    { apply (runCalls_cons_hangs inst st c cs) in Hhang as [-> He].
      rewrite He in Hstep |- *. unfold durationOf in *.
      cbn [fst snd omap list_omap] in *. destruct Hstep as [-> ->].
      split; [simpl; lia|]. rewrite Hsum. simpl. ring. }
    rewrite runCalls_cons by done; cbn [fst snd omap list_omap].
    destruct (durationOf (c, snd (executeCall inst c st))) as [d|].
    + destruct Hstep as [Ht Ha].
      destruct (IH (fst (executeCall inst c st)) (sum + d)%Q) as [Ht' Ha'].
      * lia.
      * rewrite Ht, Ha.
        replace (totalExecutions (metrics st) + 1 - 1)
          with (totalExecutions (metrics st)) by lia.
        rewrite Hsum. field.
        intros Hz. unfold Qeq in Hz; simpl in Hz. lia.
      * cbv zeta in Ht', Ha' |- *. split.
        -- rewrite Ht', Ht. simpl length. lia.
        -- rewrite Ha'. simpl. ring.
    + destruct Hstep as [Ht Ha].
      destruct (IH (fst (executeCall inst c st)) sum) as [Ht' Ha'];
        [rewrite Ht; lia | rewrite Ht, Ha; exact Hsum |].
      cbv zeta in Ht', Ha' |- *. split; [by rewrite Ht', Ht | exact Ha'].
Qed.

(** C7: with metrics on, after any sequence of calls that starts with
    [totalExecutions] at 0, [totalExecutions] is the number [N] of calls
    that ran their algorithm to completion, and [averageExecutionTime] is
    the sum of their durations divided by [N], whatever the order of the
    durations. Each completed call updates the average by
    [(oldAvg * (n - 1) + duration) / n], with [n] the new
    [totalExecutions]; every other call, a cache hit among them, leaves
    both as they were. Durations and averages are rationals. *)
Theorem average_execution_time inst st cs :
  enableMetrics (config inst) = true →
  totalExecutions (metrics st) = 0 →
  let m' := metrics (fst (runCalls inst st cs)) in
  let durations := omap durationOf (snd (runCalls inst st cs)) in
  let N := Z.of_nat (length durations) in
  totalExecutions m' = N
  ∧ (0 < N → (averageExecutionTime m' == Qsum durations / inject_Z N)%Q)
  ∧ (∀ ds, Permutation durations ds → 0 < N →
       (averageExecutionTime m' == Qsum ds / inject_Z N)%Q)
  ∧ ∀ c st1,
      let m1 := metrics st1 in
      let m2 := metrics (fst (executeCall inst c st1)) in
      let n := totalExecutions m2 in
      match snd (executeCall inst c st1) with
      | Completed _ =>
          n = totalExecutions m1 + 1
          ∧ averageExecutionTime m2
            = ((averageExecutionTime m1 * inject_Z (n - 1) + elapsed (callClock c))
               / inject_Z n)%Q
      | _ =>
          n = totalExecutions m1
          ∧ averageExecutionTime m2 = averageExecutionTime m1
      end.
Proof.
  intros Hon Hzero m' durations N.
  destruct (runCalls_totals inst cs st 0 Hon) as [Ht Ha].
  { lia. } { rewrite Hzero. ring. }
  fold m' durations in Ht, Ha. rewrite Hzero in Ht.
  assert (0 < N → (averageExecutionTime m' == Qsum durations / inject_Z N)%Q)
    as Hmean.
  { intros HN. replace (totalExecutions m') with N in Ha by (unfold N; lia).
    rewrite <- (Qplus_0_l (Qsum durations)), <- Ha. field.
    intros Hz. unfold Qeq in Hz; simpl in Hz. lia. }
  split; [unfold N; lia|]. split; [done|]. split.
  - intros ds Hperm HN. rewrite <- (Qsum_Permutation _ _ Hperm). auto.
  - intros c st1 m1 m2 n.
    pose proof (executeCall_totals inst c st1 Hon) as Hstep.
    cbv zeta in Hstep. fold m1 m2 n in Hstep. unfold durationOf in Hstep.
    cbn [fst snd] in Hstep.
    destruct (snd (executeCall inst c st1)); try done.
    destruct Hstep as [Hn Havg]. split; [done|].
    rewrite Havg. fold n in Hn. by rewrite Hn.
Qed.

(** Three calls of [cryptography.isPrime] taking 2, 3 and 7 milliseconds,
    with a call served from the cache and a failing call in between, on a
    fresh hook: [totalExecutions] is 3 and the average is 4. *)
Lemma average_execution_time_witness :
  let calls :=
    [ Example.isPrimeCallTaking 5 1000 2; Example.isPrimeCallTaking 7 2000 3;
      Example.isPrimeCallTaking 7 3000 5; Example.modularInverseCall 2 4 4000;
      Example.isPrimeCallTaking 11 5000 7 ] in
  let m' := metrics (fst (runCalls Example.hook initialState calls)) in
  totalExecutions m' = 3 ∧ (averageExecutionTime m' == 4)%Q.
Proof.
  intros calls m'.
  destruct (average_execution_time Example.hook initialState calls)
    as (Ht&Ha&_); [reflexivity..|].
  split; [exact Ht|].
  etransitivity; [apply Ha; vm_compute; reflexivity|].
  vm_compute. reflexivity.
Defined.

(** ** What the states of a hook hold *)

Lemma mapGet_Some_In k e m : mapGet k m = Some e → In (k, e) m.
Proof.
  unfold mapGet. destruct (List.find _ m) as [[k' e']|] eqn:Hfind; [|done].
  intros [= <-]. apply List.find_some in Hfind as [Hin Heq]. simpl in Heq.
  apply String.eqb_eq in Heq. by subst.
Qed.

Lemma mapGet_None_not_In k m : mapGet k m = None → ∀ e, ¬ In (k, e) m.
Proof.
  unfold mapGet. destruct (List.find _ m) as [[k' e']|] eqn:Hfind; [done|].
  intros _ e Hin. apply (List.find_none _ _ Hfind) in Hin. simpl in Hin.
  by rewrite String.eqb_refl in Hin.
Qed.

Lemma In_mapDelete x k m : In x (mapDelete k m) → In x m.
Proof. unfold mapDelete. rewrite List.filter_In. tauto. Qed.

Lemma In_deleteAll x ks m : In x (deleteAll ks m) → In x m.
Proof.
  revert m. induction ks as [|k ks IH]; simpl; [done|].
  intros m H. by apply IH, In_mapDelete in H.
Qed.

Lemma In_mapSet x k e m : In x (mapSet k e m) → x = (k, e) ∨ In x m.
Proof.
  induction m as [|[k' e'] m IH]; simpl.
  - intros [<-|[]]. by left.
  - destruct (String.eqb_spec k' k) as [->|_]; simpl.
    + intros [<-|H]; auto.
    + intros [<-|H]; auto. destruct (IH H); auto.
Qed.

Section Invariants.

Variable inst : Instance.

Lemma getCachedResult_In key now st x :
  In x (cache (snd (getCachedResult inst key now st))) → In x (cache st).
Proof.
  unfold getCachedResult. destruct (enableCache _); simpl; [|done].
  destruct (mapGet key (cache st)) as [entry|]; simpl; [|done].
  destruct (now <? CacheEntry.expires entry); simpl; [done|].
  apply In_mapDelete.
Qed.

Lemma afterCheck_In path params options clk st x :
  In x (cache (afterCheck inst path params options clk st)) → In x (cache st).
Proof.
  unfold afterCheck. destruct (skipCache options); [done|].
  apply getCachedResult_In.
Qed.

Lemma setCachedResult_In key v clk st x :
  In x (cache (setCachedResult inst key v clk st)) →
  fst x = key ∨ In x (cache st).
Proof.
  unfold setCachedResult. destruct (enableCache _); simpl; [|auto].
  intros [->|H]%In_mapSet; [by left|right].
  destruct (maxCacheSize (config inst) <=? mapSize (cache st)); [|done].
  by apply In_deleteAll in H.
Qed.

Lemma executeCall_preserves c st :
  statsResolve inst st → cacheKeysResolve inst st →
  statsResolve inst (fst (executeCall inst c st))
  ∧ cacheKeysResolve inst (fst (executeCall inst c st)).
Proof.
  intros Hstats Hkeys. destruct c as [path params options clk].
  unfold executeCall; cbn [callPath callParams callOptions callClock].
  destruct (executeAlgorithm inst path params options clk st) as [st' e] eqn:He.
  pose proof (afterCheck_spec inst path params options clk st) as Hcheck.
  cbv zeta in Hcheck. destruct Hcheck as (_&_&_&Hs&_).
  pose proof (afterCheck_In path params options clk st) as Hin.
  cbn [fst].
  apply executeAlgorithm_cases in He as [(v&_&->&->)|[_ Hl]].
  { split.
    - intros p s. simpl. rewrite Hs. apply Hstats.
    - intros k x. simpl. intros H%Hin. by apply Hkeys in H. }
  apply lookupAndInvoke_cases in Hl
    as [(f&result&Hf&_&Hc)|[(m&->&_)|(f&_&_&_&->)]].
  3:{ split.
      - intros p s. rewrite Hs. apply Hstats.
      - intros k x H%Hin. by apply Hkeys in H. }
  - pose proof (complete_spec inst path params options clk
      (generateCacheKey inst path params clk) result
      (afterCheck inst path params options clk st)) as Hcomp.
    cbv zeta in Hcomp. rewrite Hc in Hcomp. cbn [fst snd] in Hcomp.
    destruct Hcomp as (_&Hm&Hcache&_).
    pose proof (updateMetrics_spec inst path (elapsed clk)
      (afterCheck inst path params options clk st)) as Hu.
    cbv zeta in Hu. destruct Hu as (_&_&_&_&Hu).
    split.
    + intros p s. rewrite Hm.
      destruct (enableMetrics (config inst)).
      * destruct Hu as (_&_&s'&->). rewrite Hs.
        destruct (decide (path = p)) as [<-|Hne]; [by exists f|].
        rewrite lookup_insert_ne by done. apply Hstats.
      * rewrite Hu, Hs. apply Hstats.
    + intros k x. rewrite Hcache. intros [Hk|H]%setCachedResult_In.
      * simpl in Hk. subst k. exists path, params, clk. split; [done|by exists f].
      * by apply Hin, Hkeys in H.
  - pose proof (failWith_spec inst path params clk m
      (afterCheck inst path params options clk st)) as Hfail.
    cbv zeta in Hfail. destruct Hfail as (Hc&_&_&_&_&_&_&Hst).
    split.
    + intros p s. rewrite Hst, Hs.
      destruct (enableMetrics (config inst)); [|apply Hstats].
      destruct (algorithmStats (metrics st) !! path) as [s0|] eqn:Hp;
        [|apply Hstats].
      destruct (decide (path = p)) as [<-|Hne]; [intros _; by apply Hstats in Hp|].
      rewrite lookup_insert_ne by done. apply Hstats.
    + intros k x. rewrite Hc. intros H%Hin. by apply Hkeys in H.
Qed.

Lemma step_preserves a st :
  statsResolve inst st → cacheKeysResolve inst st →
  statsResolve inst (step inst st a) ∧ cacheKeysResolve inst (step inst st a).
Proof.
  intros Hstats Hkeys. destruct a as [c| |now|]; simpl.
  - by apply executeCall_preserves.
  - split; [exact Hstats|]. by intros k e [].
  - split; [exact Hstats|]. intros k e [H _]%List.filter_In. by apply Hkeys in H.
  - split; [|exact Hkeys]. intros p s. simpl. by rewrite lookup_empty.
Qed.

Lemma reachable_invariant st :
  reachable inst st → statsResolve inst st ∧ cacheKeysResolve inst st.
Proof.
  intros [actions ->].
  assert (statsResolve inst initialState ∧ cacheKeysResolve inst initialState) as Hinit.
  { split; [intros p s; simpl; by rewrite lookup_empty|by intros k e []]. }
  revert Hinit. generalize initialState.
  induction actions as [|a actions IH]; intros st Hst; [done|].
  simpl. destruct Hst.
  destruct (blocks inst st a); [|apply IH]; by apply step_preserves.
Qed.

End Invariants.

(** ** Unknown algorithms *)

Lemma append_cons c a b : String c a +:+ b = String c (a +:+ b).
Proof. reflexivity. Qed.

Lemma append_nil b : "" +:+ b = b.
Proof. reflexivity. Qed.

Lemma resolveAlgorithm_message inst path m :
  resolveAlgorithm inst path = inr m →
  m = "Categoría de algoritmo no encontrada: "
        +:+ default EmptyString (head (splitOn "." path))
  ∨ m = "Algoritmo no encontrado: " +:+ path.
Proof.
  unfold resolveAlgorithm.
  destruct (algorithmMap inst !! _) as [category|]; [|intros [= <-]; by left].
  intros H. right. revert H.
  destruct (splitOn "." path !! 1%nat) as [method|];
    [destruct (String.eqb method "")|];
    repeat case_match; congruence.
Qed.

(** ** The keys of a host *)

Lemma lex_app st a b : lex st (a +:+ b) = lex st a ≫= λ st', lex st' b.
Proof.
  revert st. induction a as [|c a IH]; intros st; [done|].
  rewrite append_cons. simpl. destruct (lexStep st c); [apply IH|done].
Qed.

Lemma numberChar_lexStep c :
  numberChar c = true →
  lexStep Outside c = Some Outside ∧ lexStep Inside c = Some Inside.
Proof.
  destruct c as [[] [] [] [] [] [] [] []]; vm_compute; intros; try done.
Qed.

Lemma numberText_lex s :
  numberText s = true → lex Outside s = Some Outside ∧ lex Inside s = Some Inside.
Proof.
  induction s as [|c s IH]; [done|]. cbn [lex numberText].
  intros [Hc Hs]%andb_prop. destruct (numberChar_lexStep c Hc) as [-> ->]. auto.
Qed.

Lemma numberText_app a b :
  numberText (a +:+ b) = numberText a && numberText b.
Proof.
  induction a as [|c a IH]; [done|]. rewrite append_cons. simpl.
  by rewrite IH, andb_assoc.
Qed.

Lemma pretty_N_go_numberText x s :
  numberText s = true → numberText (pretty_N_go x s) = true.
Proof.
  revert s. induction (N.lt_wf_0 x) as [x _ IH]; intros s Hs.
  assert (x = 0 ∨ 0 < x)%N as [->|Hx] by lia.
  - by rewrite pretty_N_go_0.
  - rewrite pretty_N_go_step by done. apply IH; [by apply N.div_lt|].
    simpl. rewrite Hs, andb_true_r.
    unfold pretty_N_char. by repeat case_match.
Qed.

Lemma pretty_Z_numberText (n : Z) : numberText (pretty n) = true.
Proof.
  assert (∀ p : positive, numberText (pretty p) = true) as Hpos.
  { intros p. unfold pretty, pretty_positive, pretty, pretty_N.
    destruct (decide _); [done|]. by apply pretty_N_go_numberText. }
  destruct n as [|p|p]; [done|apply Hpos|].
  unfold pretty, pretty_Z. rewrite numberText_app. by rewrite Hpos.
Qed.

Lemma lex_escapeChar c : lex Inside (Example.escapeChar c) = Some Inside.
Proof. destruct c as [[] [] [] [] [] [] [] []]; vm_compute; reflexivity. Qed.

Lemma lex_escapeString s : lex Inside (Example.escapeString s) = Some Inside.
Proof.
  induction s as [|c s IH]; [done|]. simpl.
  by rewrite lex_app, lex_escapeChar.
Qed.

Lemma lex_quote s : lex Outside (Example.quote s) = Some Outside.
Proof.
  unfold Example.quote.
  change (lex Outside (String (ascii_of_N 34) ?r)) with (lex Inside r).
  by rewrite lex_app, lex_escapeString.
Qed.

Lemma Value_nested_ind (P : Value → Prop) :
  P VUndefined → P VNull → (∀ b, P (VBool b)) → (∀ n, P (VNumber n)) →
  P VNaN → (∀ n, P (VBigInt n)) → (∀ s, P (VString s)) →
  (∀ items, Forall P items → P (VArray items)) →
  (∀ fields, Forall (λ kv, P (snd kv)) fields → P (VObject fields)) →
  ∀ v, P v.
Proof.
  intros Hu Hn Hb Hnum Hnan Hbig Hs Harr Hobj. fix IH 1.
  intros [ | |b|n| |n|s|items|fields].
  - exact Hu.
  - exact Hn.
  - apply Hb.
  - apply Hnum.
  - exact Hnan.
  - apply Hbig.
  - apply Hs.
  - apply Harr. induction items as [|x items IHitems]; constructor.
    + apply IH.
    + exact IHitems.
  - apply Hobj. induction fields as [|[k x] fields IHfields]; constructor.
    + apply IH.
    + exact IHfields.
Qed.

Lemma lex_joinComma_go texts acc :
  lexesOutside acc → Forall lexesOutside texts →
  lexesOutside (List.fold_left (λ acc y, acc +:+ "," +:+ y) texts acc).
Proof.
  revert acc. induction texts as [|t texts IH]; intros acc Hacc Hall; [done|].
  apply Forall_cons in Hall as [Ht Hall]. simpl. apply IH; [|done].
  unfold lexesOutside in *. rewrite lex_app, Hacc. simpl.
  change (lex Outside ("," +:+ t)) with (lex Outside t). done.
Qed.

Lemma lex_joinComma texts :
  Forall lexesOutside texts → lexesOutside (Example.joinComma texts).
Proof.
  destruct texts as [|t texts]; [done|]. intros [Ht Hall]%Forall_cons.
  by apply lex_joinComma_go.
Qed.

Lemma lex_bracketed (l r : Ascii.ascii) inner :
  lexStep Outside l = Some Outside → lexStep Outside r = Some Outside →
  lexesOutside inner →
  lexesOutside (String l EmptyString +:+ inner +:+ String r EmptyString).
Proof.
  intros Hl Hr Hin. unfold lexesOutside in *.
  rewrite append_cons, append_nil. cbn [lex]. rewrite Hl.
  rewrite lex_app, Hin. cbn [mbind option_bind lex]. by rewrite Hr.
Qed.

Lemma lex_serialize v t : Example.serialize v = Example.Text t → lexesOutside t.
Proof.
  revert t. induction v as [ | |b|n| |n|s|items IH|fields IH]
    using Value_nested_ind; intros t; simpl.
  - done.
  - by intros [= <-].
  - intros [= <-]. by destruct b.
  - intros [= <-]. apply numberText_lex, pretty_Z_numberText.
  - by intros [= <-].
  - done.
  - intros [= <-]. apply lex_quote.
  - match goal with
    | |- context [match ?e with Some _ => _ | None => _ end] =>
        destruct e as [texts|] eqn:Htexts; [|done]
    end.
    intros [= <-]. apply (lex_bracketed "[" "]"); [done..|].
    apply lex_joinComma. revert texts Htexts.
    induction IH as [|x items Hx _ IHitems]; intros texts.
    { by intros [= <-]. }
    destruct (Example.serialize x) as [tx| |] eqn:Hsx; [| |done].
    + destruct (_ items) as [rest|] eqn:Hrest; [|done]. simpl.
      intros [= <-]. constructor; [by apply Hx|by apply IHitems].
    + destruct (_ items) as [rest|] eqn:Hrest; [|done]. simpl.
      intros [= <-]. constructor; [done|by apply IHitems].
  - match goal with
    | |- context [match ?e with Some _ => _ | None => _ end] =>
        destruct e as [texts|] eqn:Htexts; [|done]
    end.
    intros [= <-]. apply (lex_bracketed "{" "}"); [done..|].
    apply lex_joinComma. revert texts Htexts.
    induction IH as [|[k x] fields Hx _ IHfields]; intros texts.
    { by intros [= <-]. }
    simpl in Hx.
    destruct (Example.serialize x) as [tx| |] eqn:Hsx; [| |done].
    + destruct (_ fields) as [rest|] eqn:Hrest; [|done]. simpl.
      intros [= <-]. constructor; [|by apply IHfields].
      unfold lexesOutside. rewrite lex_app, lex_quote. simpl.
      change (lex Outside (":" +:+ tx)) with (lex Outside tx). by apply Hx.
    + by apply IHfields.
Qed.

Lemma lex_stringify params json :
  Example.stringify params = Some json →
  lexesOutside json ∧ ∃ rest, json = String "[" rest.
Proof.
  unfold Example.stringify.
  destruct (Example.serialize (VArray params)) as [t| |] eqn:Hs; [|done..].
  intros [= <-]. split; [by eapply lex_serialize|].
  simpl in Hs.
  match type of Hs with
  | context [match ?e with Some _ => _ | None => _ end] =>
      destruct e as [texts|]; [|done]
  end.
  injection Hs as <-. eexists. by rewrite append_cons, append_nil.
Qed.

(** Two texts with an underscore in them are equal: the underscores are
    at the same place, or one of them is further to the right. *)
Lemma underscore_split a s b s' :
  a +:+ "_" +:+ s = b +:+ "_" +:+ s' →
  (a = b ∧ s = s')
  ∨ (∃ x, b = a +:+ "_" +:+ x ∧ s = x +:+ "_" +:+ s')
  ∨ (∃ x, a = b +:+ "_" +:+ x ∧ s' = x +:+ "_" +:+ s).
Proof.
  revert b. induction a as [|c a IH]; intros [|c' b];
    rewrite ?append_cons, ?append_nil.
  - intros [= ->]. by left.
  - intros [= <- ->]. right; left. exists b. by rewrite append_cons, append_nil.
  - intros [= -> <-]. right; right. exists a. by rewrite append_cons, append_nil.
  - intros [= <- H].
    assert (a +:+ "_" +:+ s = b +:+ "_" +:+ s') as H'
      by (by rewrite !append_cons, !append_nil).
    destruct (IH b H') as [[-> ->]|[(x&->&->)|(x&->&->)]].
    + by left.
    + right; left. exists x. by rewrite append_cons.
    + right; right. exists x. by rewrite append_cons.
Qed.

Lemma append_assoc a b t : (a +:+ b) +:+ t = a +:+ (b +:+ t).
Proof. induction a as [|x a IH]; [done|]. by rewrite !append_cons, IH. Qed.

Lemma lex_opposite s a b a' b' :
  (a = Outside ∧ b = Inside) ∨ (a = Inside ∧ b = Outside) →
  lex a s = Some a' → lex b s = Some b' →
  (a' = Outside ∧ b' = Inside) ∨ (a' = Inside ∧ b' = Outside).
Proof.
  revert a b. induction s as [|c s IH]; intros a b Hab; cbn [lex].
  { intros [= <-] [= <-]. done. }
  destruct (lexStep a c) as [a1|] eqn:Ha; [|done].
  destruct (lexStep b c) as [b1|] eqn:Hb; [|done].
  apply IH. unfold lexStep in Ha, Hb.
  destruct Hab as [[-> ->]|[-> ->]];
    destruct (N_of_ascii c =? 34)%N, (N_of_ascii c =? 92)%N,
      (N_of_ascii c =? 95)%N; simpl in *; simplify_eq; auto.
Qed.

(** After an underscore, a JSON text is inside a string literal. *)
Lemma lex_after_underscore x rest :
  lexesOutside (x +:+ "_" +:+ rest) → lex Inside rest = Some Outside.
Proof.
  unfold lexesOutside. rewrite lex_app.
  destruct (lex Outside x) as [[| |]|]; simpl; done.
Qed.

Lemma numberText_no_bracket s rest x :
  numberText s = true → s ≠ x +:+ String "[" rest.
Proof.
  revert s. induction x as [|c x IH]; intros [|c' s];
    rewrite ?append_cons, ?append_nil; try done.
  - simpl. intros [Hc _]%andb_prop [= -> _]. done.
  - simpl. intros [_ Hs]%andb_prop [= _ H]. by apply (IH s).
Qed.

Lemma numberText_noUnderscore s : numberText s = true → noUnderscore s = true.
Proof.
  induction s as [|c s IH]; [done|]. simpl.
  intros [Hc Hs]%andb_prop. rewrite IH by done.
  destruct c as [[] [] [] [] [] [] [] []]; done.
Qed.

Lemma noUnderscore_app a b :
  noUnderscore (a +:+ b) = noUnderscore a && noUnderscore b.
Proof.
  induction a as [|c a IH]; [done|]. rewrite append_cons. simpl.
  by rewrite IH, andb_assoc.
Qed.

Lemma keySuffix_not_nested s s' x :
  keySuffix s → keySuffix s' → s ≠ x +:+ "_" +:+ s'.
Proof.
  intros [[a Ha]|(d&r&->&Hd&Hr)] [[a' Ha']|(d'&r'&->&Hd'&Hr')] Heq.
  - apply lex_stringify in Ha as [Hs _]. apply lex_stringify in Ha' as [Hs' _].
    rewrite Heq in Hs. apply lex_after_underscore in Hs.
    destruct (lex_opposite s' Outside Inside Outside Outside) as [[? ?]|[? ?]];
      auto; done.
  - apply lex_stringify in Ha as [Hs _].
    rewrite Heq in Hs. apply lex_after_underscore in Hs.
    rewrite lex_app in Hs.
    destruct (numberText_lex d' Hd') as [_ Hd'']. rewrite Hd'' in Hs.
    cbn [mbind option_bind] in Hs.
    change (lex Inside ("_" +:+ r')) with (lex Inside r') in Hs.
    destruct (numberText_lex r' Hr') as [_ Hr'']. congruence.
  - apply lex_stringify in Ha' as [_ [rest ->]].
    apply numberText_noUnderscore in Hd as Hud.
    apply underscore_split in Heq as [[_ ->]|[(y&Hy&Hr')|(y&->&_)]].
    + by apply (numberText_no_bracket _ rest "") in Hr.
    + apply (numberText_no_bracket r rest (y +:+ "_")) in Hr. apply Hr.
      by rewrite Hr', append_assoc.
    + rewrite noUnderscore_app in Hud. apply andb_prop in Hud as [_ Hud].
      done.
  - apply numberText_noUnderscore in Hd as Hud.
    apply numberText_noUnderscore in Hr as Hur.
    apply underscore_split in Heq as [[_ ->]|[(y&Hy&->)|(y&->&_)]].
    + rewrite noUnderscore_app in Hur. apply andb_prop in Hur as [_ Hur].
      done.
    + rewrite noUnderscore_app in Hur. apply andb_prop in Hur as [_ Hur].
      done.
    + rewrite noUnderscore_app in Hud. apply andb_prop in Hud as [_ Hud].
      done.
Qed.

Lemma hostKey_suffix cfg registry path params clk :
  hostNonce clk →
  ∃ s, generateCacheKey (hostHook cfg registry) path params clk
       = path +:+ "_" +:+ s ∧ keySuffix s.
Proof.
  intros Hclk. unfold generateCacheKey. cbn [JSON_stringify hostHook].
  destruct (Example.stringify params) as [json|] eqn:Hjson.
  - exists json. split; [done|]. left. by exists params.
  - exists (fallbackNonce clk). split; [done|]. by right.
Qed.

(** On a host the key of a call tells its path. *)
Lemma hostKey_determines_path cfg registry p a c p' a' c' :
  hostNonce c → hostNonce c' →
  generateCacheKey (hostHook cfg registry) p a c
  = generateCacheKey (hostHook cfg registry) p' a' c' →
  p = p'.
Proof.
  intros Hc Hc' Heq.
  destruct (hostKey_suffix cfg registry p a c Hc) as (s&Hs&Hsuf).
  destruct (hostKey_suffix cfg registry p' a' c' Hc') as (s'&Hs'&Hsuf').
  rewrite Hs, Hs' in Heq.
  apply underscore_split in Heq as [[-> _]|[(x&_&Hx)|(x&_&Hx)]]; [done| |].
  - by apply keySuffix_not_nested in Hx.
  - by apply keySuffix_not_nested in Hx.
Qed.

Section HostInvariant.

Variable inst : Instance.

Lemma executeCall_preserves_host c st :
  hostNonce (callClock c) →
  cacheKeysOnHost inst st →
  cacheKeysOnHost inst (fst (executeCall inst c st)).
Proof.
  intros Hclk Hkeys. destruct c as [path params options clk].
  unfold executeCall; cbn [callPath callParams callOptions callClock] in *.
  destruct (executeAlgorithm inst path params options clk st) as [st' e] eqn:He.
  pose proof (afterCheck_In inst path params options clk st) as Hin.
  cbn [fst].
  apply executeAlgorithm_cases in He as [(v&_&->&->)|[_ Hl]].
  { intros k x. simpl. intros H%Hin. by apply Hkeys in H. }
  apply lookupAndInvoke_cases in Hl
    as [(f&result&Hf&_&Hc)|[(m&->&_)|(f&_&_&_&->)]].
  - pose proof (complete_spec inst path params options clk
      (generateCacheKey inst path params clk) result
      (afterCheck inst path params options clk st)) as Hcomp.
    cbv zeta in Hcomp. rewrite Hc in Hcomp. cbn [fst snd] in Hcomp.
    destruct Hcomp as (_&_&Hcache&_).
    intros k x. rewrite Hcache. intros [Hk|H]%setCachedResult_In.
    + simpl in Hk. subst k. exists path, params, clk.
      split; [done|]. split; [by exists f|done].
    + by apply Hin, Hkeys in H.
  - pose proof (failWith_spec inst path params clk m
      (afterCheck inst path params options clk st)) as Hfail.
    cbv zeta in Hfail. destruct Hfail as (Hc&_).
    intros k x. rewrite Hc. intros H%Hin. by apply Hkeys in H.
  - intros k x H%Hin. by apply Hkeys in H.
Qed.

Lemma step_preserves_host a st :
  onHost a → cacheKeysOnHost inst st → cacheKeysOnHost inst (step inst st a).
Proof.
  intros Ha Hkeys. destruct a as [c| |now|]; simpl.
  - by apply executeCall_preserves_host.
  - by intros k e [].
  - intros k e [H _]%List.filter_In. by apply Hkeys in H.
  - exact Hkeys.
Qed.

Lemma reachableOnHost_reachable st : reachableOnHost inst st → reachable inst st.
Proof. intros (actions&_&->). by exists actions. Qed.

Lemma reachableOnHost_invariant st :
  reachableOnHost inst st → cacheKeysOnHost inst st.
Proof.
  intros (actions&Hhost&->).
  assert (cacheKeysOnHost inst initialState) as Hinit by (by intros k e []).
  revert Hinit. generalize initialState.
  induction Hhost as [|a actions Ha _ IH]; intros st Hst; [done|].
  simpl. destruct (blocks inst st a); [|apply IH]; by apply step_preserves_host.
Qed.

End HostInvariant.

(** On a host nothing is cached under the key of a call whose path does
    not resolve: a call with that key was a call for that path. *)
Lemma unresolved_key_absent cfg registry st path params clk m :
  reachableOnHost (hostHook cfg registry) st →
  hostNonce clk →
  resolveAlgorithm (hostHook cfg registry) path = inr m →
  mapGet (generateCacheKey (hostHook cfg registry) path params clk) (cache st)
  = None.
Proof.
  intros Hkeys%reachableOnHost_invariant Hclk Hm.
  destruct (mapGet _ (cache st)) as [e|] eqn:Hget; [|done].
  apply mapGet_Some_In, Hkeys in Hget as (p&a&c&Heq&[f Hf]&Hc).
  apply hostKey_determines_path in Heq; [|done..]. subst p. congruence.
Qed.

(** A call whose path does not resolve finds nothing in the cache and
    goes to the [catch] block with the error of the lookup. *)
Lemma unresolved_call cfg registry st path params options clk m :
  let inst := hostHook cfg registry in
  reachableOnHost inst st →
  hostNonce clk →
  resolveAlgorithm inst path = inr m →
  mapGet (generateCacheKey inst path params clk) (cache st) = None
  ∧ servedFromCache inst path params options clk st = None
  ∧ lookupAndInvoke inst path params options clk
      (generateCacheKey inst path params clk)
      (afterCheck inst path params options clk st)
    = (failWith inst path params clk m
         (afterCheck inst path params options clk st), LookupFailed m).
Proof.
  intros inst Hreach Hclk Hm.
  pose proof (unresolved_key_absent cfg registry st path params clk m
                Hreach Hclk Hm) as Habsent.
  split; [done|]. split.
  - destruct (servedFromCache _ _ _ _ _ _) as [v|] eqn:Hv; [|done].
    apply servedFromCache_Some in Hv as (_&_&_&entry&Hget&_).
    fold inst in Habsent. congruence.
  - unfold lookupAndInvoke. by rewrite Hm.
Qed.

(** The readings of the example clock are host readings. *)
Lemma at_hostNonce t d : hostNonce (Example.at_ t d).
Proof.
  exists (pretty t), "0.5". split; [reflexivity|].
  split; [apply pretty_Z_numberText|reflexivity].
Qed.

(** ** Unknown algorithms on a host *)





(** ** Repeated calls *)

Lemma generateCacheKey_clock inst path params clk1 clk2 :
  is_Some (JSON_stringify inst params) →
  generateCacheKey inst path params clk1 = generateCacheKey inst path params clk2.
Proof. intros [json Hjson]. unfold generateCacheKey. by rewrite Hjson. Qed.

(** The entry a completed call leaves under its key. *)
Lemma completed_call_is_cached inst path params options clk st st' v :
  enableCache (config inst) = true →
  executeAlgorithm inst path params options clk st = (st', Completed v) →
  mapGet (generateCacheKey inst path params clk) (cache st')
  = Some {| CacheEntry.result := v;
            CacheEntry.timestamp := nowStamp clk;
            CacheEntry.expires := nowExpiry clk + cacheTTL (config inst) |}.
Proof.
  intros Hon [(v'&_&[=]&_)|[_ Hl]]%executeAlgorithm_cases.
  apply lookupAndInvoke_cases in Hl
    as [(f&result&_&_&Hc)|[(m&_&Hm)|(f&_&_&[=]&_)]].
  - pose proof (complete_spec inst path params options clk
      (generateCacheKey inst path params clk) result
      (afterCheck inst path params options clk st)) as Hcomp.
    cbv zeta in Hcomp. rewrite Hc in Hcomp. cbn [fst snd] in Hcomp.
    destruct Hcomp as ([= <-]&_&->&_).
    unfold setCachedResult. rewrite Hon. simpl. apply mapGet_mapSet_eq.
  - destruct Hm as [[_ [=]]|[(f&_&_&[=])|(f&_&_&_&[=])]].
Qed.

(** C1, as amended: with the cache on, for parameters that
    [JSON.stringify] serialises, when a call completes with a truthy
    result [v], a second call for the same path and parameters that does
    not skip the cache and checks it before the entry expires
    ([Date.now()] below the stored [Date.now() + cacheTTL]) invokes no
    algorithm: it returns [v] from the cache and is counted as a cache
    hit, not as a miss and not as an execution. *)
Theorem cache_idempotence inst path params options1 options2 clk1 clk2 st st1 v :
  enableCache (config inst) = true →
  is_Some (JSON_stringify inst params) →
  executeAlgorithm inst path params options1 clk1 st = (st1, Completed v) →
  truthy v = true →
  skipCache options2 = false →
  nowCheck clk2 < nowExpiry clk1 + cacheTTL (config inst) →
  let st2 := fst (executeAlgorithm inst path params options2 clk2 st1) in
  let e2 := snd (executeAlgorithm inst path params options2 clk2 st1) in
  e2 = CacheHit v
  ∧ invoked e2 = false
  ∧ cacheHits (metrics st2) = cacheHits (metrics st1) + 1
  ∧ cacheMisses (metrics st2) = cacheMisses (metrics st1)
  ∧ totalExecutions (metrics st2) = totalExecutions (metrics st1).
Proof.
  intros Hon Hjson Hfirst Hv Hskip Httl.
  pose proof (completed_call_is_cached _ _ _ _ _ _ _ _ Hon Hfirst) as Hget.
  rewrite (generateCacheKey_clock inst path params clk1 clk2 Hjson) in Hget.
  assert (servedFromCache inst path params options2 clk2 st1 = Some v) as Hs.
  { apply servedFromCache_Some. repeat split; try done. eauto. }
  assert (executeAlgorithm inst path params options2 clk2 st1
          = (fst (executeAlgorithm inst path params options2 clk2 st1), CacheHit v))
    as He.
  { rewrite executeAlgorithm_unfold, Hs. done. }
  pose proof (afterCheck_hit inst _ _ _ _ _ _ Hs) as Hhit.
  pose proof (afterCheck_spec inst path params options2 clk2 st1) as Hcheck.
  cbv zeta in Hhit, Hcheck |- *.
  destruct Hhit as (_&Hh&Hm). destruct Hcheck as (_&Ht&_).
  rewrite He. cbn [fst snd]. rewrite executeAlgorithm_unfold, Hs.
  rewrite updateMetrics_fromCache. cbn [fst]. by repeat split.
Qed.

(** [execute('cryptography.isPrime', [7])] twice, one second apart, on a
    fresh hook. *)
Lemma cache_idempotence_witness :
  let r1 := executeCall Example.hook (Example.isPrimeCall 7 1000) initialState in
  let r2 := executeCall Example.hook (Example.isPrimeCall 7 2000) (fst r1) in
  snd r1 = Completed (VBool true)
  ∧ snd r2 = CacheHit (VBool true)
  ∧ cacheHits (metrics (fst r2)) = cacheHits (metrics (fst r1)) + 1.
Proof.
  intros r1 r2.
  destruct (cache_idempotence Example.hook "cryptography.isPrime" [VNumber 7]
              defaultOptions defaultOptions (Example.at_ 1000 1)
              (Example.at_ 2000 1) initialState (fst r1) (VBool true))
    as (He&_&Hh&_).
  - reflexivity.
  - by eexists.
  - vm_compute. reflexivity.
  - reflexivity.
  - reflexivity.
  - vm_compute. reflexivity.
  - split; [vm_compute; reflexivity|]. split; [exact He|exact Hh].
Defined.

(** C1, as stated, fails: [execute('cryptography.generatePrimes', [10n])]
    twice, one second apart, on a fresh hook with the default options.
    [JSON.stringify] throws on the BigInt, each call gets a fallback key
    of its own, and the second call, well within the 30 minutes of the
    TTL, invokes the algorithm again and is counted as a miss. *)
Lemma unserialisable_params_are_recomputed :
  let call t := {| callPath := "cryptography.generatePrimes";
                   callParams := [VBigInt 10];
                   callOptions := defaultOptions;
                   callClock := Example.at_ t 1 |} in
  let primes := VArray [VNumber 2; VNumber 3; VNumber 5; VNumber 7] in
  let r1 := executeCall Example.hook (call 1000) initialState in
  let r2 := executeCall Example.hook (call 2000) (fst r1) in
  JSON_stringify Example.hook [VBigInt 10] = None
  ∧ 2000 < 1000 + cacheTTL (config Example.hook)
  ∧ snd r1 = Completed primes ∧ snd r2 = Completed primes
  ∧ invoked (snd r1) = true ∧ invoked (snd r2) = true
  ∧ cacheHits (metrics (fst r2)) = 0 ∧ cacheMisses (metrics (fst r2)) = 2.
Proof. vm_compute. done. Qed.

(** A result that is not truthy is stored but never served:
    [execute('cryptography.isPrime', [4])] twice, one second apart, on a
    fresh hook. The second call finds the entry, counts a cache hit, and
    runs the algorithm again all the same. *)
Lemma falsy_result_is_recomputed :
  let r1 := executeCall Example.hook (Example.isPrimeCall 4 1000) initialState in
  let r2 := executeCall Example.hook (Example.isPrimeCall 4 2000) (fst r1) in
  snd r1 = Completed (VBool false) ∧ snd r2 = Completed (VBool false)
  ∧ CacheEntry.result <$> mapGet "cryptography.isPrime_[4]" (cache (fst r1))
    = Some (VBool false)
  ∧ cacheHits (metrics (fst r2)) = 1
  ∧ totalExecutions (metrics (fst r2)) = 2.
Proof. vm_compute. done. Qed.

(** ** The bound of the cache, where it holds *)

Lemma keysOf_filter_sublist f (m : JsMap) :
  keysOf (List.filter f m) `sublist_of` keysOf m.
Proof.
  induction m as [|x m IH]; simpl; [constructor|].
  destruct (f x); simpl; by constructor.
Qed.

Lemma length_filter_le f (m : JsMap) : (length (List.filter f m) ≤ length m)%nat.
Proof. induction m as [|x m IH]; simpl; [lia|]. destruct (f x); simpl; lia. Qed.

Lemma elem_of_keysOf_mapDelete k' k m :
  k' ∈ keysOf (mapDelete k m) ↔ k' ∈ keysOf m ∧ k' ≠ k.
Proof.
  induction m as [|[k0 e0] m IH]; simpl.
  - split; [by intros ?%elem_of_nil|by intros [?%elem_of_nil _]].
  - destruct (String.eqb_spec k0 k) as [->|Hne]; simpl;
      rewrite ?elem_of_cons, IH; [tauto|].
    split; [intros [->|[? ?]]; auto|intros [[->|?] ?]; auto].
Qed.

Lemma length_mapDelete k m :
  NoDup (keysOf m) → k ∈ keysOf m → S (length (mapDelete k m)) = length m.
Proof.
  induction m as [|[k0 e0] m IH]; simpl; [by intros _ ?%elem_of_nil|].
  intros [Hk0 Hnd]%NoDup_cons Hin.
  destruct (String.eqb_spec k0 k) as [->|Hne]; simpl.
  - f_equal. clear IH Hin Hnd. induction m as [|[k1 e1] m IH]; simpl; [done|].
    apply not_elem_of_cons in Hk0 as [Hne Hk0]. simpl in Hne.
    destruct (String.eqb_spec k1 k); [done|]. simpl. f_equal. by apply IH.
  - f_equal. apply IH; [done|]. apply elem_of_cons in Hin as [?|?]; done.
Qed.

Lemma deleteAll_length ks m :
  NoDup ks → NoDup (keysOf m) → (∀ k, k ∈ ks → k ∈ keysOf m) →
  (length (deleteAll ks m) + length ks = length m)%nat.
Proof.
  revert m. induction ks as [|k ks IH]; intros m Hks Hm Hsub; simpl; [lia|].
  apply NoDup_cons in Hks as [Hk Hks].
  rewrite <- (length_mapDelete k m) by (try done; apply Hsub; left).
  rewrite <- (IH (mapDelete k m)); [lia|done| |].
  - eapply sublist_NoDup; [done|apply keysOf_filter_sublist].
  - intros k' Hk'. apply elem_of_keysOf_mapDelete. split.
    + apply Hsub. by right.
    + intros ->. done.
Qed.

Lemma keysOf_deleteAll_sublist ks m : keysOf (deleteAll ks m) `sublist_of` keysOf m.
Proof.
  revert m. induction ks as [|k ks IH]; intros m; simpl; [done|].
  etransitivity; [apply IH|apply keysOf_filter_sublist].
Qed.

Lemma insertByTimestamp_Permutation x l : insertByTimestamp x l ≡ₚ x :: l.
Proof.
  induction l as [|y l IH]; simpl; [done|].
  destruct (_ <=? _); [done|]. rewrite IH. apply Permutation_swap.
Qed.

Lemma sortByTimestamp_Permutation m : sortByTimestamp m ≡ₚ m.
Proof.
  induction m as [|x m IH]; simpl; [done|].
  by rewrite insertByTimestamp_Permutation, IH.
Qed.

Lemma insertByTimestamp_HdRel x y l :
  HdRel olderOrEqual y l → olderOrEqual y x →
  HdRel olderOrEqual y (insertByTimestamp x l).
Proof.
  intros Hl Hx. destruct l as [|z l]; simpl; [by constructor|].
  destruct (_ <=? _); constructor; [done|]. by inversion Hl.
Qed.

Lemma insertByTimestamp_Sorted x l :
  Sorted olderOrEqual l → Sorted olderOrEqual (insertByTimestamp x l).
Proof.
  induction 1 as [|y l Hl IH Hy]; simpl; [by repeat constructor|].
  destruct (Z.leb_spec (CacheEntry.timestamp (snd x)) (CacheEntry.timestamp (snd y))).
  - repeat constructor; done.
  - constructor; [done|]. apply insertByTimestamp_HdRel; [done|].
    unfold olderOrEqual. lia.
Qed.

Lemma sortByTimestamp_Sorted m : Sorted olderOrEqual (sortByTimestamp m).
Proof.
  induction m as [|x m IH]; simpl; [constructor|].
  by apply insertByTimestamp_Sorted.
Qed.

Lemma evictOldest_length inst c :
  NoDup (keysOf c) →
  (length (evictOldest inst c) + Z.to_nat (evictCount inst) `min` length c
   = length c)%nat.
Proof.
  intros Hnd. unfold evictOldest.
  pose proof (deleteAll_length
    (fst <$> take (Z.to_nat (evictCount inst)) (sortByTimestamp c)) c) as H.
  rewrite length_fmap, length_take in H.
  rewrite (Permutation_length (sortByTimestamp_Permutation c)) in H.
  apply H; [|done|].
  - rewrite fmap_take. eapply sublist_NoDup; [|apply sublist_take].
    unfold keysOf in Hnd. by rewrite sortByTimestamp_Permutation.
  - intros k Hk. rewrite fmap_take in Hk.
    eapply elem_of_sublist in Hk; [|apply sublist_take].
    unfold keysOf. by rewrite <- (sortByTimestamp_Permutation c).
Qed.

Lemma length_mapSet_le k e m : (length (mapSet k e m) ≤ S (length m))%nat.
Proof.
  induction m as [|[k' e'] m IH]; simpl; [lia|].
  destruct (String.eqb k' k); simpl; lia.
Qed.

Lemma elem_of_keysOf_mapSet k' k e m :
  k' ∈ keysOf (mapSet k e m) ↔ k' = k ∨ k' ∈ keysOf m.
Proof.
  induction m as [|[k0 e0] m IH]; simpl.
  - rewrite list_elem_of_singleton. split; [by left|].
    by intros [?|?%elem_of_nil].
  - destruct (String.eqb_spec k0 k) as [->|Hne]; simpl;
      rewrite !elem_of_cons, ?IH; tauto.
Qed.

Lemma NoDup_keysOf_mapSet k e m : NoDup (keysOf m) → NoDup (keysOf (mapSet k e m)).
Proof.
  induction m as [|[k0 e0] m IH]; simpl.
  - intros _. apply NoDup_singleton.
  - intros [Hk0 Hnd]%NoDup_cons.
    destruct (String.eqb_spec k0 k) as [->|Hne]; simpl.
    + by apply NoDup_cons.
    + apply NoDup_cons. split; [|by apply IH].
      rewrite elem_of_keysOf_mapSet. by intros [?|?].
Qed.

Section Bound.

Variable inst : Instance.

Lemma cacheWithinBound_filter f st st' :
  cache st' = List.filter f (cache st) →
  cacheWithinBound inst st → cacheWithinBound inst st'.
Proof.
  unfold cacheWithinBound. intros -> [Hnd Hsize]. split.
  - eapply sublist_NoDup; [done|apply keysOf_filter_sublist].
  - pose proof (length_filter_le f (cache st)). unfold mapSize in *. lia.
Qed.

Lemma cacheWithinBound_same st st' :
  cache st' = cache st → cacheWithinBound inst st → cacheWithinBound inst st'.
Proof. unfold cacheWithinBound. by intros ->. Qed.

Lemma afterCheck_bound path params options clk st :
  cacheWithinBound inst st →
  cacheWithinBound inst (afterCheck inst path params options clk st).
Proof.
  intros Hst. unfold afterCheck, getCachedResult.
  destruct (skipCache options); [done|].
  destruct (enableCache _); simpl; [|done].
  destruct (mapGet _ _) as [entry|]; simpl; [|done].
  destruct (_ <? _); simpl; [done|].
  by eapply (cacheWithinBound_filter _ (setError None (setIsLoading true st))).
Qed.

(** When a tenth of three times [maxCacheSize] is at least 1, storing a
    result keeps the cache within [maxCacheSize]. *)
Lemma setCachedResult_bound key v clk st :
  4 ≤ maxCacheSize (config inst) →
  cacheWithinBound inst st →
  cacheWithinBound inst (setCachedResult inst key v clk st).
Proof.
  intros Hmax [Hnd Hsize]. unfold setCachedResult.
  destruct (enableCache _); simpl; [|done].
  assert (1 ≤ evictCount inst) as Hevict.
  { unfold evictCount. apply Z.div_le_lower_bound; lia. }
  destruct (Z.leb_spec (maxCacheSize (config inst)) (mapSize (cache st))).
  - pose proof (evictOldest_length inst (cache st) Hnd) as Hlen.
    split; simpl.
    + apply NoDup_keysOf_mapSet.
      eapply sublist_NoDup; [done|apply keysOf_deleteAll_sublist].
    + pose proof (length_mapSet_le key
        {| CacheEntry.result := v; CacheEntry.timestamp := nowStamp clk;
           CacheEntry.expires := nowExpiry clk + cacheTTL (config inst) |}
        (evictOldest inst (cache st))).
      unfold mapSize in *. lia.
  - split; simpl.
    + by apply NoDup_keysOf_mapSet.
    + pose proof (length_mapSet_le key
        {| CacheEntry.result := v; CacheEntry.timestamp := nowStamp clk;
           CacheEntry.expires := nowExpiry clk + cacheTTL (config inst) |}
        (cache st)).
      unfold mapSize in *. lia.
Qed.

Lemma step_bound a st :
  4 ≤ maxCacheSize (config inst) →
  cacheWithinBound inst st → cacheWithinBound inst (step inst st a).
Proof.
  intros Hmax Hst. destruct a as [[path params options clk]| |now|]; simpl.
  - unfold executeCall; cbn [callPath callParams callOptions callClock].
    destruct (executeAlgorithm inst path params options clk st) as [st' e] eqn:He.
    pose proof (afterCheck_bound path params options clk st Hst) as Hcheck.
    cbn [fst].
    apply executeAlgorithm_cases in He as [(v&_&->&->)|[_ Hl]]; [done|].
    apply lookupAndInvoke_cases in Hl
      as [(f&result&_&_&Hc)|[(m&->&_)|(f&_&_&_&->)]].
    + pose proof (complete_spec inst path params options clk
        (generateCacheKey inst path params clk) result
        (afterCheck inst path params options clk st)) as Hcomp.
      cbv zeta in Hcomp. rewrite Hc in Hcomp. cbn [fst snd] in Hcomp.
      destruct Hcomp as (_&_&Hcache&_).
      eapply cacheWithinBound_same; [exact Hcache|].
      by apply setCachedResult_bound.
    + done.
    + done.
  - split; [apply NoDup_nil_2|unfold mapSize; simpl; lia].
  - by eapply (cacheWithinBound_filter _ st).
  - done.
Qed.

(** For [maxCacheSize] from 4 up, no state a hook can reach holds more
    than [maxCacheSize] entries in its cache. *)
Lemma cache_stays_within_maxCacheSize st :
  4 ≤ maxCacheSize (config inst) →
  reachable inst st →
  mapSize (cache st) ≤ maxCacheSize (config inst).
Proof.
  intros Hmax [actions ->].
  assert (cacheWithinBound inst initialState) as Hinit
    by (split; [apply NoDup_nil_2|unfold mapSize; simpl; lia]).
  assert (∀ st0, cacheWithinBound inst st0 →
            cacheWithinBound inst (run inst st0 actions)) as Hrun.
  { induction actions as [|a actions IH]; intros st0 Hst0; [done|].
    simpl. destruct (blocks inst st0 a); [|apply IH]; by apply step_bound. }
  by destruct (Hrun initialState Hinit).
Qed.

End Bound.

(** The entries that are evicted are the oldest: none of them is younger
    than an entry that stays. *)
Lemma sorted_take_drop (l : JsMap) n x y :
  Sorted olderOrEqual l → x ∈ take n l → y ∈ drop n l → olderOrEqual x y.
Proof.
  intros Hl%Sorted_StronglySorted; [|intros a b c; unfold olderOrEqual; lia].
  revert n. induction Hl as [|z l Hl IH Hz]; intros n.
  - rewrite take_nil. by intros ?%elem_of_nil.
  - destruct n as [|n]; simpl; [by intros ?%elem_of_nil|].
    intros [->|Hx]%elem_of_cons Hy.
    + rewrite Forall_forall in Hz. apply Hz.
      eapply elem_of_sublist; [done|apply sublist_drop].
    + by apply (IH n).
Qed.

Lemma evicted_are_oldest inst c x y :
  NoDup (keysOf c) →
  x ∈ take (Z.to_nat (evictCount inst)) (sortByTimestamp c) →
  y ∈ evictOldest inst c →
  olderOrEqual x y.
Proof.
  intros Hnd Hx Hy.
  apply (sorted_take_drop (sortByTimestamp c) (Z.to_nat (evictCount inst)));
    [apply sortByTimestamp_Sorted|done|].
  assert (y ∈ sortByTimestamp c) as Hin.
  { rewrite sortByTimestamp_Permutation. apply list_elem_of_In.
    eapply In_deleteAll. apply list_elem_of_In. exact Hy. }
  rewrite <- (take_drop (Z.to_nat (evictCount inst)) (sortByTimestamp c)) in Hin.
  apply elem_of_app in Hin as [Hin|Hin]; [exfalso|done].
  assert (NoDup (keysOf (sortByTimestamp c))) as Hnd'
    by (unfold keysOf in *; by rewrite sortByTimestamp_Permutation).
  assert (fst y ∈ keysOf (evictOldest inst c)) as Hky
    by (by apply list_elem_of_fmap_2).
  revert Hky. unfold evictOldest.
  generalize (take (Z.to_nat (evictCount inst)) (sortByTimestamp c)) Hin.
  intros evicted Hev. clear -Hev.
  revert c. induction evicted as [|z evicted IH]; intros c;
    [by apply elem_of_nil in Hev|].
  simpl. apply elem_of_cons in Hev as [<-|Hev].
  - intros Hk. eapply elem_of_sublist in Hk; [|apply keysOf_deleteAll_sublist].
    apply elem_of_keysOf_mapDelete in Hk as [_ Hne]. done.
  - by apply IH.
Qed.

(** ** Synchronous algorithms and the timer *)

(** A call whose algorithm returns synchronously is never timed out,
    whatever time it took and whatever the timeout: the value is there
    before the timer can fire. *)
Lemma synchronous_result_beats_timer inst path params options clk st f v :
  servedFromCache inst path params options clk st = None →
  resolveAlgorithm inst path = inl f →
  f params = Returns v →
  snd (executeAlgorithm inst path params options clk st)
  = Completed (match transform options with Some g => g v | None => v end).
Proof.
  intros Hs Hf Hv. rewrite executeAlgorithm_unfold, Hs.
  unfold lookupAndInvoke. rewrite Hf, Hv. reflexivity.
Qed.

(** ** The fuel of the example algorithms *)

Lemma isPrimeLoop_fuel fuel i n :
  1 ≤ i → n - i < Z.of_nat fuel →
  Example.isPrimeLoop (S fuel) i n = Example.isPrimeLoop fuel i n.
Proof.
  revert i. induction fuel as [|fuel IH]; intros i Hi Hn.
  - simpl. destruct (Z.leb_spec (i * i) n); [nia|done].
  - change (Example.isPrimeLoop (S (S fuel)) i n)
      with (if i * i <=? n
            then (if Z.rem n i =? 0 then false
                  else Example.isPrimeLoop (S fuel) (i + 2) n)
            else true).
    rewrite IH by lia. done.
Qed.

(** More fuel than [n] does not change the answer of [isPrime]. *)
Lemma isPrimeLoop_enough k n :
  3 ≤ n →
  Example.isPrimeLoop (Z.to_nat n + k) 3 n = Example.isPrimeLoop (Z.to_nat n) 3 n.
Proof.
  intros Hn. induction k as [|k IH].
  - by rewrite Nat.add_0_r.
  - rewrite Nat.add_succ_r, isPrimeLoop_fuel by lia. exact IH.
Qed.

Lemma extendedGCDLoop_fuel fuel a b :
  Z.abs b < Z.of_nat fuel →
  Example.extendedGCDLoop (S fuel) a b = Example.extendedGCDLoop fuel a b.
Proof.
  revert a b. induction fuel as [|fuel IH]; intros a b Hb; [lia|].
  change (Example.extendedGCDLoop (S (S fuel)) a b)
    with (if b =? 0 then (a, 1, 0)
          else let '(g, rx, ry) := Example.extendedGCDLoop (S fuel) b (Z.rem a b) in
               (g, ry, rx - a / b * ry)).
  destruct (Z.eqb_spec b 0) as [->|Hne]; [done|].
  rewrite IH; [by simpl; destruct (Z.eqb_spec b 0)|].
  pose proof (Z.rem_bound_abs a b Hne). lia.
Qed.

(** More fuel than [extendedGCD] takes does not change its result. *)
Lemma extendedGCDLoop_enough k a b :
  Example.extendedGCDLoop (S (Z.abs_nat b) + k) a b = Example.extendedGCD a b.
Proof.
  unfold Example.extendedGCD. induction k as [|k IH].
  - by rewrite Nat.add_0_r.
  - rewrite Nat.add_succ_r, extendedGCDLoop_fuel by lia. exact IH.
Qed.

(** ** The example [gcd] *)

(** Once [b] is NaN the loop of [gcd] never ends. *)
Lemma gcdLoop_NaN fuel a : Example.gcdLoop fuel a None = None.
Proof.
  revert a. induction fuel as [|fuel IH]; intros a; [done|].
  simpl. unfold Example.jsRem. destruct a; apply IH.
Qed.

Lemma gcdLoop_NaN_l fuel y : y ≠ 0 → Example.gcdLoop fuel None (Some y) = None.
Proof.
  intros Hy. destruct fuel as [|fuel]; [done|]. simpl.
  destruct y; [done|apply gcdLoop_NaN..].
Qed.

(** On integers that are not negative the loop ends, with fuel to
    spare. *)
Lemma gcdLoop_integers fuel x y :
  0 ≤ x → 0 ≤ y < Z.of_nat fuel →
  ∃ r, Example.gcdLoop (S fuel) (Some x) (Some y) = Some (Some r).
Proof.
  revert x y. induction fuel as [|fuel IH]; intros x y Hx Hy; [lia|].
  change (Example.gcdLoop (S (S fuel)) (Some x) (Some y))
    with (if Example.isZero (Some y) then Some (Some x)
          else Example.gcdLoop (S fuel) (Some y) (Example.jsRem (Some x) (Some y))).
  destruct (Z.eq_dec y 0) as [->|Hne]; [by exists x|].
  replace (Example.isZero (Some y)) with false by (by destruct y).
  unfold Example.jsRem. destruct (Z.eqb_spec y 0); [done|].
  pose proof (Z.rem_bound_pos x y). apply IH; lia.
Qed.

(** [gcd] is [Diverges] exactly when its loop does not end with any
    fuel, and otherwise returns what the loop returns. *)
Lemma gcd_spec a b :
  match Example.gcd a b with
  | Diverges => ∀ fuel, Example.gcdLoop fuel (Example.jsAbs a) (Example.jsAbs b) = None
  | Returns v =>
      ∃ fuel r, Example.gcdLoop fuel (Example.jsAbs a) (Example.jsAbs b) = Some r
                ∧ v = Example.numberValue r
  | _ => False
  end.
Proof.
  unfold Example.gcd.
  destruct b as [y|]; cbn [Example.jsAbs fmap option_fmap option_map];
    [|intros; apply gcdLoop_NaN].
  destruct a as [x|]; cbn [Example.jsAbs fmap option_fmap option_map].
  - destruct (gcdLoop_integers (S (Z.to_nat (Z.abs y))) (Z.abs x) (Z.abs y))
      as [r Hr]; [lia..|].
    rewrite Hr. by exists (S (S (Z.to_nat (Z.abs y)))), (Some r).
  - destruct (Z.eq_dec (Z.abs y) 0) as [Heq|Hne].
    + rewrite Heq. by exists 1%nat, None.
    + rewrite gcdLoop_NaN_l by done. intros fuel. by apply gcdLoop_NaN_l.
Qed.

(** C9, as stated, fails: [execute('cryptography.gcd', [NaN, 1],
    {timeout: 10})] on a fresh hook. The loop of [gcd] never ends, the
    algorithm never settles, and neither does the call: no timeout error
    is raised, after 10 milliseconds or ever. *)
Lemma diverging_algorithm_is_not_timed_out :
  let r := executeAlgorithm Example.hook "cryptography.gcd" [VNaN; VNumber 1]
             (Example.withTimeout 10) (Example.at_ 1000 0) initialState in
  (∀ fuel, Example.gcdLoop fuel (Example.jsAbs None) (Example.jsAbs (Some 1)) = None)
  ∧ snd r = Hangs
  ∧ raised (snd r) = None
  ∧ error (fst r) = None.
Proof.
  split; [exact (gcd_spec None (Some 1))|]. vm_compute. done.
Qed.

(** The same for an algorithm that does end, but late:
    [execute('cryptography.generatePrimes', [10], {timeout: 10})] in a
    call measured at 60 seconds completes, and its result is cached. *)
Lemma slow_synchronous_call_completes :
  let r := executeAlgorithm Example.hook "cryptography.generatePrimes" [VNumber 10]
             (Example.withTimeout 10) (Example.at_ 1000 60000) initialState in
  let primes := VArray [VNumber 2; VNumber 3; VNumber 5; VNumber 7] in
  (inject_Z (timeout (Example.withTimeout 10)) < elapsed (Example.at_ 1000 60000))%Q
  ∧ snd r = Completed primes
  ∧ CacheEntry.result <$> mapGet "cryptography.generatePrimes_[10]" (cache (fst r))
    = Some primes.
Proof. vm_compute. done. Qed.
